(** * German preposition quiz bot: shallow embedding of [bot.py]

    The embedding follows the source file top to bottom:
    - [PyStr]: the Python string operations the bot relies on
      ([str.strip], [str.split], [str.join], [str.replace], [in],
      [str.upper]) over sequences of Unicode code points;
    - [Parser]: [parse_preposition_case];
    - [Runtime]: exceptions, the [random] module driven by an arbitrary
      sequence of draws, the iteration order of a [set], ordered [dict]s;
    - [Distractors]: [generate_wrong_options];
    - [Loader]: [load_words_from_airtable], with what it prints;
    - [Bot]: the per-user stores, [start_quiz], [handle_quiz_answer] and
      the dispatch of commands and button clicks.
    The properties come after the embedding. *)

From Stdlib Require Import ZArith NArith Ascii String.
From stdpp Require Import base option list gmap.

Local Open Scope N_scope.

(** Python strings are sequences of code points. *)
Abbreviation str := (list N).

(* ===================================================================== *)
(** ** Python string primitives *)
(* ===================================================================== *)
Module PyStr.

(** Decoding of a UTF-8 source literal into code points, so that the
    literals of [bot.py] can be written as they are in the source. *)
Fixpoint utf8_decode (bs : list N) : str :=
  match bs with
  | [] => []
  | b0 :: t0 =>
    if b0 <? 128 then b0 :: utf8_decode t0
    else if b0 <? 224 then
      match t0 with
      | b1 :: t1 => ((b0 mod 32) * 64 + b1 mod 64) :: utf8_decode t1
      | [] => []
      end
    else if b0 <? 240 then
      match t0 with
      | b1 :: b2 :: t2 =>
        ((b0 mod 16) * 4096 + (b1 mod 64) * 64 + b2 mod 64) :: utf8_decode t2
      | _ => []
      end
    else
      match t0 with
      | b1 :: b2 :: b3 :: t3 =>
        ((b0 mod 8) * 262144 + (b1 mod 64) * 4096 + (b2 mod 64) * 64 + b3 mod 64)
          :: utf8_decode t3
      | _ => []
      end
  end.

Definition lit (s : string) : str :=
  utf8_decode (List.map N_of_ascii (list_ascii_of_string s)).

(** [str.isspace] for one code point: the code points CPython treats as
    whitespace in [str.split()] and [str.strip()]. *)
Definition isspace (c : N) : bool :=
  ((9 <=? c) && (c <=? 13)) || ((28 <=? c) && (c <=? 32))
  || (c =? 133) || (c =? 160) || (c =? 5760)
  || ((8192 <=? c) && (c <=? 8202))
  || (c =? 8232) || (c =? 8233) || (c =? 8239) || (c =? 8287) || (c =? 12288).

(** [s.lstrip()], [s.rstrip()], [s.strip()]. *)
Fixpoint lstrip (s : str) : str :=
  match s with
  | [] => []
  | c :: s' => if isspace c then lstrip s' else s
  end.

Fixpoint rstrip (s : str) : str :=
  match s with
  | [] => []
  | c :: s' =>
    match rstrip s' with
    | [] => if isspace c then [] else [c]
    | r => c :: r
    end
  end.

Definition strip (s : str) : str := rstrip (lstrip s).

(** [s.split()]: split on runs of whitespace, no empty pieces.  [cur] is
    the piece being read, in reverse. *)
Definition flush (cur : str) : list str :=
  match cur with
  | [] => []
  | _ => [rev cur]
  end.

Fixpoint split_ws_aux (s cur : str) : list str :=
  match s with
  | [] => flush cur
  | c :: s' =>
    if isspace c then flush cur ++ split_ws_aux s' []
    else split_ws_aux s' (c :: cur)
  end.

Definition split_ws (s : str) : list str := split_ws_aux s [].

(** [sep.join(parts)]. *)
Fixpoint join (sep : str) (parts : list str) : str :=
  match parts with
  | [] => []
  | [p] => p
  | p :: ps => p ++ sep ++ join sep ps
  end.

(** [s.startswith(pre)]. *)
Fixpoint startswith (pre s : str) : bool :=
  match pre, s with
  | [], _ => true
  | _ :: _, [] => false
  | a :: pre', b :: s' => (a =? b) && startswith pre' s'
  end.

(** [sub in s]. *)
Fixpoint contains (sub s : str) : bool :=
  startswith sub s ||
  match s with
  | [] => false
  | _ :: s' => contains sub s'
  end.

(** [s.split(sep)] for a non-empty [sep]: scan from the left, cut at each
    occurrence and resume after it.  [skip] counts the code points of a
    matched separator still to be passed over; [cur] is the piece being
    read, in reverse. *)
Fixpoint split_on_aux (sep s : str) (skip : nat) (cur : str) : list str :=
  match s with
  | [] => [rev cur]
  | c :: s' =>
    match skip with
    | S k => split_on_aux sep s' k cur
    | O =>
      if startswith sep s
      then rev cur :: split_on_aux sep s' (Nat.pred (length sep)) []
      else split_on_aux sep s' O (c :: cur)
    end
  end.

Definition split_on (sep s : str) : list str := split_on_aux sep s O [].

(** [s.replace(old, new)] for a non-empty [old]. *)
Definition replace (old new s : str) : str := join new (split_on old s).

(** [s.upper()] on the ASCII range.  Other code points are left as they
    are: the bot only looks the result up among "A", "D" and "G", and no
    string outside the ASCII letters upper-cases to one of these. *)
Definition upper_char (c : N) : N :=
  if (97 <=? c) && (c <=? 122) then c - 32 else c.

Definition upper (s : str) : str := List.map upper_char s.

(** Truthiness of a string: [not s] is [is_empty s]. *)
Definition is_empty (s : str) : bool :=
  match s with [] => true | _ => false end.

Definition str_eqb (a b : str) : bool := bool_decide (a = b).

End PyStr.

(* ===================================================================== *)
(** ** Preposition notation parser *)
(* ===================================================================== *)
Module Parser.
Import PyStr.

(** The values of [case_mapping], and its default. *)
Inductive GCase := Accusative | Dative | Genitive | UnknownCase.

Definition case_name (c : GCase) : str :=
  match c with
  | Accusative => lit "accusative"
  | Dative => lit "dative"
  | Genitive => lit "genitive"
  | UnknownCase => lit "unknown"
  end.

Definition PLUS : str := [43].          (* '+' *)
Definition SPACE : str := [32].         (* ' ' *)
Definition SEP : str := [32; 43; 32].   (* ' + ' *)

(** [case_mapping.get(case_code, 'unknown')]. *)
Definition case_mapping (case_code : str) : GCase :=
  if str_eqb case_code (lit "A") then Accusative
  else if str_eqb case_code (lit "D") then Dative
  else if str_eqb case_code (lit "G") then Genitive
  else UnknownCase.

(** Lines 33-34: [prep_string.replace('+', ' + ').strip()] followed by
    [' '.join(prep_string.split())]. *)
Definition normalize (prep_string : str) : str :=
  join SPACE (split_ws (strip (replace PLUS SEP prep_string))).

(** [parse_preposition_case]; [None] stands for the pair [(None, None)]. *)
Definition parse_preposition_case (prep_string : str) : option (str * GCase) :=
  if is_empty prep_string then None
  else
    let s := normalize prep_string in
    if negb (contains SEP s) then None
    else
      match split_on SEP s with
      | [p0; p1] => Some (strip p0, case_mapping (upper (strip p1)))
      | _ => None
      end.

End Parser.

(* ===================================================================== *)
(** ** Exceptions, randomness and hash order *)
(* ===================================================================== *)
Module Runtime.
Import PyStr.

Inductive Exn :=
| KeyError (key : str)           (* missing string key of a dict *)
| KeyErrorInt (key : Z)          (* missing user id *)
| IndexError                     (* random.choice on an empty sequence *)
| ValueError                     (* random.sample larger than population *)
| ZeroDivisionError
| StopIteration                  (* next() on an exhausted generator *)
| SourceError (msg : str).       (* whatever the Airtable client raised *)

Inductive Result (A : Type) :=
| Ok (a : A)
| Raise (e : Exn).
Arguments Ok {A} a.
Arguments Raise {A} e.

(** The random source: an arbitrary sequence of raw draws and the number
    of draws consumed so far.  [randbelow n] is [random._randbelow(n)]. *)
Record Rng := { draws : nat -> nat; pos : nat }.

Definition randbelow (n : nat) (g : Rng) : nat * Rng :=
  (Nat.modulo (draws g (pos g)) n, {| draws := draws g; pos := S (pos g) |}).

(** [random.sample(population, k)]: the pool branch of CPython, taken for
    populations of at most 21 elements when [k <= 5]; the bot samples at
    most 3 out of at most 20.
<<
    pool = list(population)
    for i in range(k):
        j = randbelow(n - i)
        result[i] = pool[j]
        pool[j] = pool[n - i - 1]
>>  [m] is [n - i]. *)
Fixpoint sample_pool (pool : list str) (m k : nat) (g : Rng) : list str * Rng :=
  match k with
  | O => ([], g)
  | S k' =>
    let '(j, g1) := randbelow m g in
    let x := nth j pool [] in
    let pool' := <[j := nth (m - 1)%nat pool []]> pool in
    let '(r, g2) := sample_pool pool' (m - 1)%nat k' g1 in
    (x :: r, g2)
  end.

Definition random_sample (population : list str) (k : nat) (g : Rng)
  : Result (list str) * Rng :=
  if decide (k <= length population)%nat
  then let '(r, g') := sample_pool population (length population) k g in (Ok r, g')
  else (Raise ValueError, g).

(** [random.choice(seq)]. *)
Definition random_choice (seq : list str) (g : Rng) : Result str * Rng :=
  match seq with
  | [] => (Raise IndexError, g)
  | _ => let '(i, g') := randbelow (length seq) g in (Ok (nth i seq []), g')
  end.

(** [random.shuffle(x)]:
<<
    for i in reversed(range(1, len(x))):
        j = randbelow(i + 1)
        x[i], x[j] = x[j], x[i]
>> *)
Definition swap (i j : nat) (x : list str) : list str :=
  <[j := nth i x []]> (<[i := nth j x []]> x).

Fixpoint shuffle_from (i : nat) (x : list str) (g : Rng) : list str * Rng :=
  match i with
  | O => (x, g)
  | S i' =>
    let '(j, g1) := randbelow (S i) g in
    shuffle_from i' (swap i j x) g1
  end.

Definition random_shuffle (x : list str) (g : Rng) : list str * Rng :=
  shuffle_from (length x - 1)%nat x g.

(** Iteration order of a Python [set] of strings: some enumeration of its
    elements, fixed by the interpreter's string hashing. *)
Class SetOrder := {
  set_to_list : gset str -> list str;
  set_to_list_perm : forall X, set_to_list X ≡ₚ elements X
}.

(** One possible iteration order, and one possible random source. *)
Definition elements_order : SetOrder :=
  {| set_to_list := elements;
     set_to_list_perm := fun X => reflexivity (elements X) |}.

Definition zero_rng : Rng := {| draws := fun _ => O; pos := O |}.

(** Ordered dictionaries with string keys ([dict] keeps insertion order;
    assigning to an existing key keeps its position). *)
Fixpoint dict_get {V} (k : str) (d : list (str * V)) : option V :=
  match d with
  | [] => None
  | (k', v) :: d' => if decide (k = k') then Some v else dict_get k d'
  end.

Fixpoint dict_set {V} (k : str) (v : V) (d : list (str * V)) : list (str * V) :=
  match d with
  | [] => [(k, v)]
  | (k', v') :: d' =>
    if decide (k = k') then (k, v) :: d' else (k', v') :: dict_set k v d'
  end.

Definition dict_keys {V} (d : list (str * V)) : list str := d.*1.

End Runtime.

(* ===================================================================== *)
(** ** Distractor generator *)
(* ===================================================================== *)
Module Distractors.
Import PyStr Runtime.

Definition common_prepositions : list (str * list str) :=
  [ (lit "accusative",
     lit <$> ["auf"; "für"; "gegen"; "durch"; "ohne"; "um"; "an"; "über"]%string);
    (lit "dative",
     lit <$> ["mit"; "von"; "zu"; "bei"; "nach"; "aus"; "vor"; "an"]%string);
    (lit "both",
     lit <$> ["in"; "über"; "unter"; "zwischen"; "neben"; "hinter"; "vor"]%string) ].

(** Lines 65-67: the union of the three pools. *)
Definition all_preps : gset str :=
  foldl (fun acc prep_list => acc ∪ list_to_set prep_list) ∅ (common_prepositions.*2).

Section WithOrder.
Context `{SetOrder}.

(** [generate_wrong_options]. *)
Definition generate_wrong_options (correct_preposition : str) (g : Rng)
  : Result (list str) * Rng :=
  let remaining := all_preps ∖ {[correct_preposition]} in
  let candidates := set_to_list remaining in
  random_sample candidates (Nat.min 3 (length candidates)) g.

End WithOrder.
End Distractors.

(* ===================================================================== *)
(** ** Vocabulary loader *)
(* ===================================================================== *)
Module Loader.
Import PyStr Parser Runtime Distractors.

(** A field value of an Airtable record: a string, a structured object
    (with its [str()] rendering), or any other JSON value, of which the
    loader only uses the truth value and the [str()] rendering. *)
#[warnings="-register-all"]
Inductive Value :=
| VStr (s : str)
| VDict (rendered : str) (items : list (str * Value))
| VOther (is_true : bool) (rendered : str).

(** A record as returned by [Table.all()]: [record['id']] and
    [record['fields']]. *)
Record ARecord := { rec_id : str; rec_fields : list (str * Value) }.

(** An entry of [words_data].  The fields the fallback entry does not
    have are optional. *)
Record Entry := {
  e_word : option str;
  e_preposition : str;
  e_case : GCase;
  e_example : str;
  e_wrong_options : list str;
  e_difficulty : str;
  e_english_translation : str;
  e_example_de : option str;
  e_original_prep_format : str;
  e_record_id : option str
}.

(** What the loader prints. *)
Inductive LogLine :=
| LogFound (total : nat)                 (* Found {n} total records in Airtable *)
| LogRecordFields (keys : list str)      (* Record fields: [...] *)
| LogSkippedMissing (keys : list str)    (* Skipped record - missing fields *)
| LogSkippedParse (word prep_string : str) (* Skipped {word} - couldn't parse *)
| LogLoaded (accepted : nat)             (* Successfully loaded: {n} words *)
| LogSkipped (skipped : nat)             (* Skipped: {n} records *)
| LogError (e : Exn).                    (* Error loading from Airtable: {e} *)

Definition truthy (v : Value) : bool :=
  match v with
  | VStr s => negb (is_empty s)
  | VDict _ items => match items with [] => false | _ => true end
  | VOther b _ => b
  end.

Definition py_str (v : Value) : str :=
  match v with
  | VStr s => s
  | VDict r _ => r
  | VOther _ r => r
  end.

(** [str(x).strip() if x else ""]. *)
Definition text_of (v : Value) : str :=
  if truthy v then strip (py_str v) else [].

(** [fields.get(name, '')]. *)
Definition get_field (name : str) (fields : list (str * Value)) : Value :=
  default (VStr []) (dict_get name fields).

(** Lines 130-131 and 135-136: a structured value is replaced by its
    ['value'] sub-field, or by its ['text'] sub-field. *)
Definition unwrap (v : Value) : Value :=
  match v with
  | VDict _ items =>
    let a := get_field (lit "value") items in
    if truthy a then a else get_field (lit "text") items
  | _ => v
  end.

(** [create_example_sentence]. *)
Definition create_example_sentence (word preposition english_translation : str) : str :=
  if negb (is_empty english_translation)
  then lit "I " ++ english_translation ++ lit " something. (Ich " ++ word
         ++ lit " " ++ preposition ++ lit " etwas.)"
  else lit "Ich " ++ word ++ lit " " ++ preposition ++ lit " etwas.".

(** Lines 157-161. *)
Definition difficulty_of (word : str) : str :=
  let d1 := if startswith (lit "sich ") word || (8 <? length word)%nat
            then lit "intermediate" else lit "beginner" in
  if contains (lit "ä") word || contains (lit "ö") word || contains (lit "ü") word
  then lit "advanced" else d1.

(** Line 164: [f"{word}_{preposition}"]. *)
Definition unique_key (word preposition : str) : str :=
  word ++ lit "_" ++ preposition.

(** Lines 187-197. *)
Definition fallback_data : list (str * Entry) :=
  [ (lit "achten",
     {| e_word := None;
        e_preposition := lit "auf";
        e_case := Accusative;
        e_example := lit "I pay attention to something. (Ich achte auf etwas.)";
        e_wrong_options := lit <$> ["für"; "mit"; "über"]%string;
        e_difficulty := lit "beginner";
        e_english_translation := lit "pay attention to";
        e_example_de := None;
        e_original_prep_format := lit "auf + A";
        e_record_id := None |}) ].

(** The local variables of the loop. *)
Record LoadState := {
  ls_words_data : list (str * Entry);
  ls_skipped_count : nat;
  ls_log : list LogLine
}.

Section WithOrder.
Context `{SetOrder}.

(** The body of the [for record in records] loop.  The second component
    is the exception that left the loop, if any. *)
Definition load_record (st : LoadState) (record : ARecord) (g : Rng)
  : LoadState * option Exn * Rng :=
  let fields := rec_fields record in
  let words_data := ls_words_data st in
  let skipped_count := ls_skipped_count st in
  let log1 :=
    if (length words_data <? 3)%nat
    then ls_log st ++ [LogRecordFields (dict_keys fields)] else ls_log st in
  match dict_get (lit "Word") fields, dict_get (lit "Preposition") fields with
  | Some fword, Some fprep =>
    let word := text_of fword in
    let prep_string := text_of fprep in
    if is_empty word || is_empty prep_string
    then ({| ls_words_data := words_data; ls_skipped_count := S skipped_count;
             ls_log := log1 |}, None, g)
    else
      let english_translation :=
        text_of (unwrap (get_field (lit "English Translation") fields)) in
      let example_de := text_of (unwrap (get_field (lit "Example DE") fields)) in
      let skip_unparsed :=
        let skipped_count' := S skipped_count in
        let log2 := if (skipped_count' <=? 5)%nat
                    then log1 ++ [LogSkippedParse word prep_string] else log1 in
        ({| ls_words_data := words_data; ls_skipped_count := skipped_count';
            ls_log := log2 |}, None, g) in
      match parse_preposition_case prep_string with
      | None => skip_unparsed
      | Some (preposition, case) =>
        if is_empty preposition || is_empty (case_name case) then skip_unparsed
        else
          match generate_wrong_options preposition g with
          | (Raise e, g') =>
            ({| ls_words_data := words_data; ls_skipped_count := skipped_count;
                ls_log := log1 |}, Some e, g')
          | (Ok wrong_options, g') =>
            let example :=
              if negb (is_empty example_de) then example_de
              else create_example_sentence word preposition english_translation in
            let entry :=
              {| e_word := Some word;
                 e_preposition := preposition;
                 e_case := case;
                 e_example := example;
                 e_wrong_options := wrong_options;
                 e_difficulty := difficulty_of word;
                 e_english_translation := english_translation;
                 e_example_de := Some example_de;
                 e_original_prep_format := prep_string;
                 e_record_id := Some (rec_id record) |} in
            ({| ls_words_data := dict_set (unique_key word preposition) entry words_data;
                ls_skipped_count := skipped_count;
                ls_log := log1 |}, None, g')
          end
      end
  | _, _ =>
    let skipped_count' := S skipped_count in
    let log2 := if (skipped_count' <=? 5)%nat
                then log1 ++ [LogSkippedMissing (dict_keys fields)] else log1 in
    ({| ls_words_data := words_data; ls_skipped_count := skipped_count';
        ls_log := log2 |}, None, g)
  end.

Fixpoint load_loop (records : list ARecord) (st : LoadState) (g : Rng)
  : LoadState * option Exn * Rng :=
  match records with
  | [] => (st, None, g)
  | record :: records' =>
    match load_record st record g with
    | (st', None, g') => load_loop records' st' g'
    | (st', Some e, g') => (st', Some e, g')
    end
  end.

(** [load_words_from_airtable].  [fetch] is the outcome of
    [self.verbs_table.all()].  The result is the returned dictionary, the
    lines printed, and the random source after the call. *)
Definition load_words_from_airtable (fetch : Result (list ARecord)) (g : Rng)
  : list (str * Entry) * list LogLine * Rng :=
  match fetch with
  | Raise e => (fallback_data, [LogError e], g)
  | Ok records =>
    let st0 := {| ls_words_data := []; ls_skipped_count := 0;
                  ls_log := [LogFound (length records)] |} in
    match load_loop records st0 g with
    | (st, None, g') =>
      (ls_words_data st,
       ls_log st ++ [LogLoaded (length (ls_words_data st));
                     LogSkipped (ls_skipped_count st)], g')
    | (st, Some e, g') => (fallback_data, ls_log st ++ [LogError e], g')
    end
  end.

End WithOrder.
End Loader.

(* ===================================================================== *)
(** ** Per-user stores and handlers *)
(* ===================================================================== *)
Module Bot.
Import PyStr Parser Runtime Distractors Loader.

(** A value of [user_stats]. *)
Record Stats := {
  total_questions : Z;
  correct_answers : Z;
  streak : Z;
  best_streak : Z
}.

(** A value of [current_quiz]: the snapshot stored by [start_quiz]. *)
Record Session := {
  q_word : str;
  q_correct_preposition : str;
  q_example : str;
  q_case : GCase;
  q_original_prep_format : str;
  q_english_translation : str;
  q_example_de : str
}.

(** An element of the list built by [get_alternative_prepositions]. *)
Record Alternative := {
  alt_preposition : str;
  alt_prep_format : str;
  alt_example : str;
  alt_english : str
}.

(** The fields of [GermanVerbBot] the handlers read and write. *)
Record BotState := {
  words_data : list (str * Entry);
  current_quiz : gmap Z Session;
  user_stats : gmap Z Stats
}.

(** The message a handler sends: one constructor per message template,
    with the values interpolated into it.  The accuracy shown is
    [correct / total * 100] of the two counters carried. *)
Inductive Reply :=
| WelcomeText (nwords : nat)
| HelpText
| StatsText (st : Stats) (nwords : nat)
| RefreshedText (nwords : nat)
| QuizPrompt (word : str) (options : list str)
| StartNewQuizFirst                          (* "Start a new quiz first!" *)
| CorrectText (word prep_format example_text context_info : str) (st : Stats)
| AlsoCorrectText (word user_answer alt_case alt_example prep_format
                   example_text context_info : str) (st : Stats)
| NotQuiteText (word prep_format example_text context_info
                alternatives_text : str) (st : Stats).

Inductive Outcome :=
| Sent (r : Reply)
| Silent
| Raised (e : Exn).

Definition zero_stats : Stats :=
  {| total_questions := 0; correct_answers := 0; streak := 0; best_streak := 0 |}.

(** [a or b] on strings. *)
Definition str_or (a b : str) : str := if is_empty a then b else a.

(** [get_alternative_prepositions]: [data['word']] raises on an entry
    without that key. *)
Fixpoint get_alternative_prepositions (items : list (str * Entry))
    (word current_preposition : str) : Result (list Alternative) :=
  match items with
  | [] => Ok []
  | (_, data) :: items' =>
    match e_word data with
    | None => Raise (KeyError (lit "word"))
    | Some w =>
      let keep := str_eqb w word
                  && negb (str_eqb (e_preposition data) current_preposition) in
      match get_alternative_prepositions items' word current_preposition with
      | Raise e => Raise e
      | Ok alternatives =>
        if keep
        then Ok ({| alt_preposition := e_preposition data;
                    alt_prep_format := e_original_prep_format data;
                    alt_example := str_or (default [] (e_example_de data)) (e_example data);
                    alt_english := e_english_translation data |} :: alternatives)
        else Ok alternatives
      end
    end
  end.

(** Lines 216-222, 275-281, 386-392. *)
Definition init_stats (bot : BotState) (user_id : Z) : BotState :=
  match user_stats bot !! user_id with
  | Some _ => bot
  | None => {| words_data := words_data bot;
               current_quiz := current_quiz bot;
               user_stats := <[user_id := zero_stats]> (user_stats bot) |}
  end.

Definition set_stats (bot : BotState) (user_id : Z) (st : Stats) : BotState :=
  {| words_data := words_data bot;
     current_quiz := current_quiz bot;
     user_stats := <[user_id := st]> (user_stats bot) |}.

(** [start_quiz]. *)
Definition start_quiz (bot : BotState) (user_id : Z) (g : Rng)
  : BotState * Outcome * Rng :=
  let available_words := words_data bot in
  match random_choice (dict_keys available_words) g with
  | (Raise e, g1) => (bot, Raised e, g1)
  | (Ok key, g1) =>
    match dict_get key available_words with
    | None => (bot, Raised (KeyError key), g1)
    | Some word_data =>
      match e_word word_data with
      | None => (bot, Raised (KeyError (lit "word")), g1)
      | Some word =>
        let correct_prep := e_preposition word_data in
        let wrong_preps := e_wrong_options word_data in
        let '(all_options, g2) := random_shuffle (correct_prep :: wrong_preps) g1 in
        let quiz :=
          {| q_word := word;
             q_correct_preposition := correct_prep;
             q_example := e_example word_data;
             q_case := e_case word_data;
             q_original_prep_format := e_original_prep_format word_data;
             q_english_translation := e_english_translation word_data;
             q_example_de := default [] (e_example_de word_data) |} in
        ({| words_data := words_data bot;
            current_quiz := <[user_id := quiz]> (current_quiz bot);
            user_stats := user_stats bot |},
         Sent (QuizPrompt word all_options), g2)
      end
    end
  end.

(** Lines 429-432 and 455-458. *)
Definition count_correct (st : Stats) : Stats :=
  let s := (streak st + 1)%Z in
  {| total_questions := total_questions st;
     correct_answers := (correct_answers st + 1)%Z;
     streak := s;
     best_streak := if (best_streak st <? s)%Z then s else best_streak st |}.

(** Line 485. *)
Definition reset_streak (st : Stats) : Stats :=
  {| total_questions := total_questions st;
     correct_answers := correct_answers st;
     streak := 0;
     best_streak := best_streak st |}.

Definition count_question (st : Stats) : Stats :=
  {| total_questions := (total_questions st + 1)%Z;
     correct_answers := correct_answers st;
     streak := streak st;
     best_streak := best_streak st |}.

(** The English line of the three result messages. *)
Definition context_info_of (quiz_data : Session) : str :=
  if negb (is_empty (q_english_translation quiz_data))
  then utf8_decode [240; 159; 135; 172; 240; 159; 135; 167]
         ++ lit " English: " ++ q_english_translation quiz_data ++ [10]
  else [].

(** Line 472: the case letter of the alternative's notation. *)
Definition alt_case_of (prep_format : str) : str :=
  if contains SEP prep_format
  then nth 1 (split_on SEP prep_format) []
  else [].

(** Line 498. *)
Definition alternatives_text_of (word : str) (alternatives : list Alternative) : str :=
  match alternatives with
  | [] => []
  | _ => [10] ++ utf8_decode [240; 159; 146; 161] ++ lit " Note: '" ++ word
           ++ lit "' can also take other prepositions with different meanings."
  end.

(** The end of the three grading branches: the message template divides
    by [total_questions]; the message is then sent (the transport call is
    taken to return) and the session deleted. *)
Definition send_result (bot : BotState) (user_id : Z) (st : Stats) (r : Reply)
  : BotState * Outcome :=
  if (total_questions st =? 0)%Z then (bot, Raised ZeroDivisionError)
  else ({| words_data := words_data bot;
           current_quiz := delete user_id (current_quiz bot);
           user_stats := user_stats bot |}, Sent r).

(** [handle_quiz_answer]; [data] is [query.data]. *)
Definition handle_quiz_answer (bot : BotState) (data : str) (user_id : Z)
  : BotState * Outcome :=
  match current_quiz bot !! user_id with
  | None => (bot, Sent StartNewQuizFirst)
  | Some quiz_data =>
    let user_answer := replace (lit "answer_") [] data in
    match user_stats bot !! user_id with
    | None => (bot, Raised (KeyErrorInt user_id))
    | Some st0 =>
      let st1 := count_question st0 in
      let bot1 := set_stats bot user_id st1 in
      let is_correct := str_eqb user_answer (q_correct_preposition quiz_data) in
      match get_alternative_prepositions (words_data bot) (q_word quiz_data)
              (q_correct_preposition quiz_data) with
      | Raise e => (bot1, Raised e)
      | Ok alternatives =>
        let user_found_alternative :=
          existsb (fun alt => str_eqb (alt_preposition alt) user_answer) alternatives in
        let context_info := context_info_of quiz_data in
        let example_text := str_or (q_example_de quiz_data) (q_example quiz_data) in
        if is_correct then
          let st2 := count_correct st1 in
          send_result (set_stats bot1 user_id st2) user_id st2
            (CorrectText (q_word quiz_data) (q_original_prep_format quiz_data)
               example_text context_info st2)
        else if user_found_alternative then
          let st2 := count_correct st1 in
          let bot2 := set_stats bot1 user_id st2 in
          match List.find (fun alt => str_eqb (alt_preposition alt) user_answer)
                  alternatives with
          | None => (bot2, Raised StopIteration)
          | Some chosen_alt =>
            send_result bot2 user_id st2
              (AlsoCorrectText (q_word quiz_data) user_answer
                 (alt_case_of (alt_prep_format chosen_alt)) (alt_example chosen_alt)
                 (q_original_prep_format quiz_data) example_text context_info st2)
          end
        else
          let st2 := reset_streak st1 in
          send_result (set_stats bot1 user_id st2) user_id st2
            (NotQuiteText (q_word quiz_data) (q_original_prep_format quiz_data)
               example_text context_info
               (alternatives_text_of (q_word quiz_data) alternatives) st2)
      end
    end
  end.

(** Inbound events: the five commands and a button click carrying
    [query.data]. *)
Inductive Event :=
| CmdStart (user_id : Z)
| CmdQuiz (user_id : Z)
| CmdHelp (user_id : Z)
| CmdStats (user_id : Z)
| CmdRefresh (user_id : Z) (fetch : Result (list ARecord))
| ButtonClick (user_id : Z) (data : str).

Section WithOrder.
Context `{SetOrder}.

(** [refresh_words_data]. *)
Definition refresh_words_data (bot : BotState) (fetch : Result (list ARecord)) (g : Rng)
  : BotState * Rng :=
  let '(wd, _, g') := load_words_from_airtable fetch g in
  ({| words_data := wd; current_quiz := current_quiz bot;
      user_stats := user_stats bot |}, g').

(** The bot after [__init__]. *)
Definition init_bot (fetch : Result (list ARecord)) (g : Rng) : BotState * Rng :=
  refresh_words_data {| words_data := []; current_quiz := ∅; user_stats := ∅ |} fetch g.

(** [stats]. *)
Definition stats (bot : BotState) (user_id : Z) : BotState * Outcome :=
  let bot' := init_stats bot user_id in
  (bot', Sent (StatsText (default zero_stats (user_stats bot' !! user_id))
                 (length (words_data bot')))).

(** [handle_button_click]. *)
Definition handle_button_click (bot : BotState) (user_id : Z) (data : str) (g : Rng)
  : BotState * Outcome * Rng :=
  let bot1 := init_stats bot user_id in
  if startswith (lit "quiz_") data then start_quiz bot1 user_id g
  else if str_eqb data (lit "show_stats") then (stats bot1 user_id, g)
  else if str_eqb data (lit "help") then (bot1, Sent HelpText, g)
  else if startswith (lit "answer_") data then (handle_quiz_answer bot1 data user_id, g)
  else (bot1, Silent, g).

(** One inbound event, processed to completion. *)
Definition step (bot : BotState) (ev : Event) (g : Rng) : BotState * Outcome * Rng :=
  match ev with
  | CmdStart user_id =>
    let bot' := init_stats bot user_id in
    (bot', Sent (WelcomeText (length (words_data bot'))), g)
  | CmdQuiz user_id => start_quiz bot user_id g
  | CmdHelp _ => (bot, Sent HelpText, g)
  | CmdStats user_id => (stats bot user_id, g)
  | CmdRefresh _ fetch =>
    let '(bot', g') := refresh_words_data bot fetch g in
    (bot', Sent (RefreshedText (length (words_data bot'))), g')
  | ButtonClick user_id data => handle_button_click bot user_id data g
  end.

(** A sequence of events, oldest first. *)
Fixpoint run (bot : BotState) (evs : list Event) (g : Rng) : BotState * Rng :=
  match evs with
  | [] => (bot, g)
  | ev :: evs' => let '(bot', _, g') := step bot ev g in run bot' evs' g'
  end.

End WithOrder.
End Bot.

(* ===================================================================== *)
(** * Properties *)
(* ===================================================================== *)

Import PyStr Parser Runtime Distractors Loader Bot.

(** ** Vocabulary of the statements *)

Definition all_space (w : str) : Prop := Forall (fun c => isspace c = true) w.
Definition plus_free (s : str) : Prop := Forall (fun c => c ≠ 43) s.

(** A code point of a word: neither whitespace nor '+'. *)
Definition word_char (c : N) : Prop := isspace c = false ∧ c ≠ 43.

(** A word: non-empty, made of word characters. *)
Definition word_tok (t : str) : Prop := t ≠ [] ∧ Forall word_char t.

(** The case letters and the cases they stand for. *)
Inductive case_letter : N -> GCase -> Prop :=
| letter_A : case_letter 65 Accusative
| letter_D : case_letter 68 Dative
| letter_G : case_letter 71 Genitive.

(** A preposition the parser gives back unchanged: not empty, without
    '+', and equal to its own words joined by single spaces. *)
Definition normal_prep (p : str) : Prop :=
  p ≠ [] ∧ plus_free p ∧ join SPACE (split_ws p) = p.

(** The word and preposition under which the loop body accepts a record;
    [None] when the record is skipped (lines 114-145). *)
Definition accepted_key (record : ARecord) : option (str * str) :=
  match dict_get (lit "Word") (rec_fields record),
        dict_get (lit "Preposition") (rec_fields record) with
  | Some fword, Some fprep =>
    if is_empty (text_of fword) || is_empty (text_of fprep) then None
    else
      match parse_preposition_case (text_of fprep) with
      | Some (preposition, case) =>
        if is_empty preposition || is_empty (case_name case) then None
        else Some (text_of fword, preposition)
      | None => None
      end
  | _, _ => None
  end.

(** An entry as the loop stores it: it carries its word, its German
    example and its record id, and sits under the key made of its word
    and preposition. *)
Definition loaded_entry (k : str) (e : Entry) : Prop :=
  ∃ w, e_word e = Some w ∧ k = unique_key w (e_preposition e)
       ∧ is_Some (e_example_de e) ∧ is_Some (e_record_id e).

Definition index_wf (idx : list (str * Entry)) : Prop :=
  NoDup (dict_keys idx) ∧ ∀ k e, (k, e) ∈ idx -> loaded_entry k e.

(** The loop variables before the first record. *)
Definition load_start (records : list ARecord) : LoadState :=
  {| ls_words_data := []; ls_skipped_count := 0;
     ls_log := [LogFound (length records)] |}.

(** The printed lines carry the three counts of a load report. *)
Definition reports_counts (log : list LogLine) : Prop :=
  ∃ total accepted skipped,
    LogFound total ∈ log ∧ LogLoaded accepted ∈ log ∧ LogSkipped skipped ∈ log.

(** Two records for "denken an": one entry, from the second record. *)
Definition denken_rec1 : ARecord :=
  {| rec_id := lit "rec1";
     rec_fields := [(lit "Word", VStr (lit "denken"));
                    (lit "Preposition", VStr (lit "an + A"))] |}.

Definition denken_rec2 : ARecord :=
  {| rec_id := lit "rec2";
     rec_fields := [(lit "Word", VStr (lit " denken "));
                    (lit "Preposition", VStr (lit "an+a"));
                    (lit "Example DE", VStr (lit "Ich denke an dich."))] |}.

(** A user's counters; a user never seen counts as all zeros. *)
Definition stats_of (bot : BotState) (user_id : Z) : Stats :=
  default zero_stats (user_stats bot !! user_id).

(** How one event may change a user's counters: not at all, by counting
    the question only (the handler raised afterwards), or by counting the
    question and then a correct or an incorrect answer. *)
Inductive stats_step (st : Stats) : Stats -> Prop :=
| step_same : stats_step st st
| step_question : stats_step st (count_question st)
| step_correct : stats_step st (count_correct (count_question st))
| step_incorrect : stats_step st (reset_streak (count_question st)).

Definition streak_ok (st : Stats) : Prop :=
  (0 <= streak st)%Z ∧ (streak st <= best_streak st)%Z.

(** The outcome is the "Not quite right" message. *)
Definition is_incorrect (o : Outcome) : Prop :=
  match o with
  | Sent (NotQuiteText _ _ _ _ _ _) => True
  | _ => False
  end.

(** The snapshot [start_quiz] stores for an entry and its word. *)
Definition session_of (word : str) (word_data : Entry) : Session :=
  {| q_word := word;
     q_correct_preposition := e_preposition word_data;
     q_example := e_example word_data;
     q_case := e_case word_data;
     q_original_prep_format := e_original_prep_format word_data;
     q_english_translation := e_english_translation word_data;
     q_example_de := default [] (e_example_de word_data) |}.

(** The example shown for an entry: [data.get('example_de') or data['example']]. *)
Definition example_text (e : Entry) : str :=
  str_or (default [] (e_example_de e)) (e_example e).

(** The element [get_alternative_prepositions] builds for an entry. *)
Definition alt_of (data : Entry) : Alternative :=
  {| alt_preposition := e_preposition data;
     alt_prep_format := e_original_prep_format data;
     alt_example := example_text data;
     alt_english := e_english_translation data |}.


(** A bot with the given vocabulary and no user yet. *)
Definition fresh_bot (idx : list (str * Entry)) : BotState :=
  {| words_data := idx; current_quiz := ∅; user_stats := ∅ |}.

(** A vocabulary with the two "denken" entries, and a user who has been
    asked "denken"/"an". *)
Definition denken_an : Entry :=
  {| e_word := Some (lit "denken");
     e_preposition := lit "an";
     e_case := Accusative;
     e_example := lit "Ich denke an dich.";
     e_wrong_options := lit <$> ["auf"; "mit"; "zu"]%string;
     e_difficulty := lit "beginner";
     e_english_translation := lit "think of";
     e_example_de := Some (lit "Ich denke an dich.");
     e_original_prep_format := lit "an + A";
     e_record_id := Some (lit "rec1") |}.

Definition denken_ueber : Entry :=
  {| e_word := Some (lit "denken");
     e_preposition := lit "über";
     e_case := Accusative;
     e_example := lit "Ich denke über das Problem nach.";
     e_wrong_options := lit <$> ["auf"; "mit"; "zu"]%string;
     e_difficulty := lit "beginner";
     e_english_translation := lit "think about";
     e_example_de := Some (lit "Ich denke über das Problem nach.");
     e_original_prep_format := lit "über + A";
     e_record_id := Some (lit "rec2") |}.

Definition denken_index : list (str * Entry) :=
  [(lit "denken_an", denken_an); (lit "denken_über", denken_ueber)].

Definition denken_bot : BotState :=
  {| words_data := denken_index;
     current_quiz := {[ 7%Z := session_of (lit "denken") denken_an ]};
     user_stats := {[ 7%Z := zero_stats ]} |}.

(** The user of [denken_bot] after the correct answer "an" has been graded. *)
Definition graded_bot : BotState :=
  (handle_quiz_answer denken_bot (lit "answer_an") 7).1.

Definition graded_reply : Reply :=
  match (handle_quiz_answer denken_bot (lit "answer_an") 7).2 with
  | Sent r => r
  | _ => StartNewQuizFirst
  end.

(** The record is skipped by the loop. *)
Definition rejected (record : ARecord) : bool :=
  match accepted_key record with
  | None => true
  | Some _ => false
  end.

(** A line printed by one iteration of the loop. *)
Definition record_line (l : LogLine) : Prop :=
  match l with
  | LogRecordFields _ | LogSkippedMissing _ | LogSkippedParse _ _ => True
  | _ => False
  end.

(** What every entry stored by the loop satisfies: a non-empty, trimmed
    word and preposition, exactly three distinct wrong options out of the
    pool, none of them the preposition, and a non-empty example. *)
Definition well_built (e : Entry) : Prop :=
  ∃ w, e_word e = Some w ∧ w ≠ [] ∧ strip w = w
       ∧ e_preposition e ≠ [] ∧ strip (e_preposition e) = e_preposition e
       ∧ length (e_wrong_options e) = 3%nat ∧ NoDup (e_wrong_options e)
       ∧ (e_preposition e ∉ e_wrong_options e)
       ∧ (∀ x, x ∈ e_wrong_options e -> x ∈ all_preps)
       ∧ e_example e ≠ [].

(** The chain kept by the four counters of a user. *)
Definition counters_ok (st : Stats) : Prop :=
  (0 <= streak st)%Z ∧ (streak st <= best_streak st)%Z
  ∧ (best_streak st <= correct_answers st)%Z
  ∧ (correct_answers st <= total_questions st)%Z.

(** The user an event comes from. *)
Definition event_user (ev : Event) : Z :=
  match ev with
  | CmdStart u | CmdQuiz u | CmdHelp u | CmdStats u | CmdRefresh u _
  | ButtonClick u _ => u
  end.

Definition is_refresh (ev : Event) : Prop :=
  match ev with
  | CmdRefresh _ _ => True
  | _ => False
  end.

(** The dictionary loaded from the two "denken an" records. *)
Definition denken_loaded : list (str * Entry) :=
  (@load_words_from_airtable elements_order (Ok [denken_rec1; denken_rec2]) zero_rng).1.1.

(** A user with a pending session and counters, on the fallback
    dictionary (as after a failed refresh). *)
Definition stale_bot : BotState :=
  {| words_data := fallback_data;
     current_quiz := {[ 7%Z := session_of (lit "denken") denken_an ]};
     user_stats := {[ 7%Z := zero_stats ]} |}.

(** ** Strings *)

Lemma word_char_not_space c : word_char c -> (32 =? c) = false.
Proof.
  intros [Hs _]. destruct (N.eqb_spec 32 c) as [<-|]; [discriminate Hs | reflexivity].
Qed.

Lemma space_not_plus c : isspace c = true -> c ≠ 43.
Proof. intros Hs ->. discriminate Hs. Qed.

Lemma all_space_plus_free w : all_space w -> plus_free w.
Proof. intros Hw. eapply Forall_impl; [exact Hw | exact space_not_plus]. Qed.

Lemma flush_word cur :
  cur ≠ [] -> Forall word_char cur -> flush cur = [rev cur] ∧ word_tok (rev cur).
Proof.
  intros Hne Hw. destruct cur as [|c cur]; [done|]. split; [reflexivity|].
  split.
  - intros Hr. apply (f_equal length) in Hr. rewrite length_rev in Hr. discriminate Hr.
  - apply Forall_rev. exact Hw.
Qed.

Lemma flush_words cur : Forall word_char cur -> Forall word_tok (flush cur).
Proof.
  intros Hw. destruct cur as [|c cur]; [constructor|].
  destruct (flush_word (c :: cur)) as [-> Hok]; [done | done |].
  constructor; [exact Hok | constructor].
Qed.

(** Every piece produced by [split()] is a word when the input has no '+'. *)
Lemma split_ws_aux_words s cur :
  plus_free s -> Forall word_char cur -> Forall word_tok (split_ws_aux s cur).
Proof.
  revert cur. induction s as [|c s IH]; intros cur Hs Hcur; simpl.
  - by apply flush_words.
  - inversion Hs as [|? ? Hc Hs']; subst.
    destruct (isspace c) eqn:Hsp.
    + apply Forall_app. split; [by apply flush_words | apply IH; [done | constructor]].
    + apply IH; [done|]. constructor; [by split | done].
Qed.

Lemma split_ws_words s : plus_free s -> Forall word_tok (split_ws s).
Proof. intros Hs. apply split_ws_aux_words; [done | constructor]. Qed.

Lemma split_ws_aux_space a w b cur :
  isspace w = true ->
  split_ws_aux (a ++ w :: b) cur = split_ws_aux a cur ++ split_ws b.
Proof.
  intros Hw. revert cur. induction a as [|c a IH]; intros cur; simpl.
  - by rewrite Hw.
  - destruct (isspace c); [by rewrite IH, app_assoc | apply IH].
Qed.

Lemma split_ws_aux_all_space w cur : all_space w -> split_ws_aux w cur = flush cur.
Proof.
  intros Hw. revert cur. induction Hw as [|c w Hc Hw IH]; intros cur; simpl; [done|].
  rewrite Hc, IH. simpl. apply app_nil_r.
Qed.

Lemma split_ws_aux_trailing a w cur :
  all_space w -> split_ws_aux (a ++ w) cur = split_ws_aux a cur.
Proof.
  intros Hw. revert cur. induction a as [|c a IH]; intros cur; simpl.
  - by apply split_ws_aux_all_space.
  - destruct (isspace c); [by rewrite IH | apply IH].
Qed.

Lemma split_ws_leading w b : all_space w -> split_ws (w ++ b) = split_ws b.
Proof.
  intros Hw. induction Hw as [|c w Hc Hw IH]; [done|].
  unfold split_ws in *. simpl. by rewrite Hc.
Qed.

Lemma split_ws_lstrip s : split_ws (lstrip s) = split_ws s.
Proof.
  induction s as [|c s IH]; [done|]. simpl.
  destruct (isspace c) eqn:Hc; [|done].
  rewrite IH. unfold split_ws. simpl. by rewrite Hc.
Qed.

Lemma split_ws_aux_rstrip s cur : split_ws_aux (rstrip s) cur = split_ws_aux s cur.
Proof.
  revert cur. induction s as [|c s IH]; intros cur; [done|]. simpl.
  destruct (rstrip s) as [|x r] eqn:Hr.
  - destruct (isspace c) eqn:Hc; simpl.
    + rewrite <- IH. simpl. by rewrite app_nil_r.
    + rewrite Hc, <- IH. done.
  - simpl (split_ws_aux (c :: _) _). destruct (isspace c); by rewrite <- IH.
Qed.

Lemma split_ws_strip s : split_ws (strip s) = split_ws s.
Proof.
  unfold strip, split_ws at 1. rewrite split_ws_aux_rstrip. apply split_ws_lstrip.
Qed.

Lemma join_cons2 sep a b l : join sep (a :: b :: l) = a ++ sep ++ join sep (b :: l).
Proof. reflexivity. Qed.

Lemma join_app sep (L R : list str) :
  L ≠ [] -> R ≠ [] -> join sep (L ++ R) = join sep L ++ sep ++ join sep R.
Proof.
  intros HL HR. induction L as [|a L IH]; [done|].
  destruct L as [|b L].
  - destruct R as [|r R]; [done|]. reflexivity.
  - change ((a :: b :: L) ++ R) with (a :: (b :: L ++ R)).
    rewrite !join_cons2. change (b :: L ++ R) with ((b :: L) ++ R).
    rewrite IH by done. by repeat rewrite <- app_assoc.
Qed.

Lemma split_on_aux_nonempty sep s k cur : split_on_aux sep s k cur ≠ [].
Proof.
  revert k cur. induction s as [|c s IH]; intros k cur; simpl; [done|].
  destruct k; [|apply IH]. destruct (startswith sep (c :: s)); [done | apply IH].
Qed.

(** [s.replace(c, new)] for a single code point [c] rewrites each
    occurrence in place. *)
Lemma replace_char_aux c new s cur :
  join new (split_on_aux [c] s O cur)
  = rev cur ++ flat_map (fun x => if c =? x then new else [x]) s.
Proof.
  revert cur. induction s as [|x s IH]; intros cur; simpl.
  - by rewrite app_nil_r.
  - destruct (c =? x); simpl.
    + pose proof (split_on_aux_nonempty [c] s O []) as Hne.
      destruct (split_on_aux [c] s O []) as [|p ps] eqn:Hp; [done|].
      by rewrite <- Hp, IH.
    + rewrite IH. simpl. by rewrite <- app_assoc.
Qed.

Lemma replace_char c new s :
  replace [c] new s = flat_map (fun x => if c =? x then new else [x]) s.
Proof. unfold replace, split_on. by rewrite replace_char_aux. Qed.

Lemma replace_plus_free s : plus_free s -> replace PLUS SEP s = s.
Proof.
  intros Hs. unfold PLUS. rewrite replace_char.
  induction Hs as [|x s Hx Hs IH]; [done|]. cbn [flat_map].
  destruct (N.eqb_spec 43 x) as [E|_]; [by subst|]. by rewrite IH.
Qed.

Lemma replace_plus_app a b :
  replace PLUS SEP (a ++ b) = replace PLUS SEP a ++ replace PLUS SEP b.
Proof. unfold PLUS. rewrite !replace_char. apply flat_map_app. Qed.

(** The normalised form of [l ++ w1 ++ "+" ++ w2 ++ r]: the words of [l],
    a lone "+", the words of [r]. *)
Lemma split_ws_notation l w1 w2 r :
  plus_free l -> plus_free r -> all_space w1 -> all_space w2 ->
  split_ws (strip (replace PLUS SEP (l ++ w1 ++ PLUS ++ w2 ++ r)))
  = split_ws l ++ [43] :: split_ws r.
Proof.
  intros Hl Hr H1 H2. rewrite split_ws_strip.
  rewrite !replace_plus_app.
  rewrite (replace_plus_free l), (replace_plus_free r), (replace_plus_free w1),
    (replace_plus_free w2) by auto using all_space_plus_free.
  change (replace PLUS SEP PLUS) with (32 :: 43 :: [32]).
  rewrite (app_assoc l w1). unfold split_ws at 1.
  change ((l ++ w1) ++ (32 :: 43 :: [32]) ++ w2 ++ r)
    with ((l ++ w1) ++ 32 :: ([43] ++ 32 :: (w2 ++ r))).
  rewrite split_ws_aux_space by done.
  rewrite split_ws_aux_trailing by done. f_equal.
  unfold split_ws at 1. rewrite split_ws_aux_space by done.
  by rewrite split_ws_leading.
Qed.

Lemma split_on_aux_miss sep c s cur :
  startswith sep (c :: s) = false ->
  split_on_aux sep (c :: s) O cur = split_on_aux sep s O (c :: cur).
Proof. intros Hm. cbn [split_on_aux]. by rewrite Hm. Qed.

(** [split(' + ')] on words joined by single spaces. *)
Lemma split_on_aux_word t rest cur :
  Forall word_char t ->
  split_on_aux SEP (t ++ rest) O cur = split_on_aux SEP rest O (rev t ++ cur).
Proof.
  intros Ht. revert cur. induction Ht as [|c t Hc Ht IH]; intros cur; [done|].
  cbn [app]. unfold SEP at 1. cbn [split_on_aux startswith].
  rewrite (word_char_not_space c Hc). cbn [andb]. fold SEP.
  rewrite IH. cbn [rev]. by rewrite <- app_assoc.
Qed.

Lemma join_words_head (t : str) (L : list str) :
  word_tok t -> ∃ x tl, join SPACE (t :: L) = x :: tl ∧ x ≠ 43.
Proof.
  intros [Hne Ht]. destruct t as [|x t']; [done|].
  inversion Ht as [|? ? [_ Hx] _]; subst.
  destruct L; simpl; eauto.
Qed.

Lemma split_on_aux_words L rest cur :
  L ≠ [] -> Forall word_tok L ->
  split_on_aux SEP (join SPACE L ++ rest) O cur
  = split_on_aux SEP rest O (rev (join SPACE L) ++ cur).
Proof.
  intros HL HF. revert cur. induction L as [|t L IH]; intros cur; [done|].
  inversion HF as [|? ? Ht HF']; subst.
  destruct L as [|t2 L].
  - simpl. apply split_on_aux_word. apply Ht.
  - rewrite join_cons2. repeat rewrite <- app_assoc.
    rewrite split_on_aux_word by apply Ht.
    inversion HF' as [|? ? Ht2 _]; subst.
    destruct (join_words_head t2 L Ht2) as (x & tl & Hj & Hx).
    specialize (IH ltac:(done) HF').
    revert IH. rewrite Hj. intros IH.
    unfold SPACE. cbn [app].
    rewrite split_on_aux_miss.
    + change (x :: tl ++ rest) with ((x :: tl) ++ rest). rewrite IH. f_equal.
      rewrite !rev_app_distr. cbn [rev app]. by repeat rewrite <- app_assoc.
    + unfold SEP. cbn [startswith]. change (32 =? 32) with true.
      destruct (N.eqb_spec 43 x) as [E|_]; [by subst | done].
Qed.

Lemma split_on_aux_hit rest cur :
  split_on_aux SEP (SEP ++ rest) O cur = rev cur :: split_on_aux SEP rest O [].
Proof. reflexivity. Qed.

Lemma split_on_sep_words L R :
  L ≠ [] -> R ≠ [] -> Forall word_tok L -> Forall word_tok R ->
  split_on SEP (join SPACE (L ++ [43] :: R)) = [join SPACE L; join SPACE R].
Proof.
  intros HL HR FL FR. rewrite join_app by done.
  destruct R as [|r R]; [done|]. rewrite join_cons2.
  unfold split_on. rewrite split_on_aux_words by done.
  change (SPACE ++ [43] ++ SPACE ++ join SPACE (r :: R)) with (SEP ++ join SPACE (r :: R)).
  rewrite split_on_aux_hit, app_nil_r, rev_involutive. f_equal.
  rewrite <- (app_nil_r (join SPACE (r :: R))) at 1.
  rewrite split_on_aux_words by done. cbn [split_on_aux].
  by rewrite app_nil_r, rev_involutive.
Qed.

Lemma startswith_app sub b : startswith sub (sub ++ b) = true.
Proof. induction sub as [|c sub IH]; [done|]. simpl. by rewrite N.eqb_refl. Qed.

Lemma contains_startswith sub s : startswith sub s = true -> contains sub s = true.
Proof. intros Hs. destruct s; cbn [contains]; by rewrite Hs. Qed.

Lemma contains_middle sub a b : contains sub (a ++ sub ++ b) = true.
Proof.
  induction a as [|c a IH].
  - cbn [app]. apply contains_startswith, startswith_app.
  - cbn [app contains]. rewrite IH. apply orb_true_r.
Qed.

Lemma contains_sep_words L R :
  L ≠ [] -> R ≠ [] -> contains SEP (join SPACE (L ++ [43] :: R)) = true.
Proof.
  intros HL HR. rewrite join_app by done. destruct R as [|r R]; [done|].
  rewrite join_cons2.
  change (SPACE ++ [43] ++ SPACE ++ join SPACE (r :: R)) with (SEP ++ join SPACE (r :: R)).
  apply contains_middle.
Qed.

Lemma lstrip_word_head x tl : isspace x = false -> lstrip (x :: tl) = x :: tl.
Proof. intros Hx. simpl. by rewrite Hx. Qed.

Lemma rstrip_word t : Forall word_char t -> rstrip t = t.
Proof.
  induction 1 as [|c t [Hc _] Ht IH]; [done|]. simpl. rewrite IH.
  destruct t; [by rewrite Hc | done].
Qed.

Lemma rstrip_app_fixed a b : b ≠ [] -> rstrip b = b -> rstrip (a ++ b) = a ++ b.
Proof.
  intros Hb Hfix. induction a as [|c a IH]; [done|]. simpl. rewrite IH.
  destruct (a ++ b) eqn:E; [|done]. by destruct a, b.
Qed.

Lemma join_words_nonempty L : L ≠ [] -> Forall word_tok L -> join SPACE L ≠ [].
Proof.
  intros HL HF. destruct L as [|t L]; [done|]. inversion HF as [|? ? Ht _]; subst.
  destruct (join_words_head t L Ht) as (x & tl & -> & _). done.
Qed.

Lemma rstrip_join_words L : L ≠ [] -> Forall word_tok L -> rstrip (join SPACE L) = join SPACE L.
Proof.
  intros HL HF. induction L as [|t L IH]; [done|].
  inversion HF as [|? ? Ht HF']; subst. destruct L as [|t2 L].
  - simpl. apply rstrip_word, Ht.
  - rewrite join_cons2, app_assoc. apply rstrip_app_fixed.
    + by apply join_words_nonempty.
    + by apply IH.
Qed.

(** Words joined by single spaces are left as they are by [strip()]. *)
Lemma strip_join_words L : L ≠ [] -> Forall word_tok L -> strip (join SPACE L) = join SPACE L.
Proof.
  intros HL HF. unfold strip.
  assert (lstrip (join SPACE L) = join SPACE L) as ->; [|by apply rstrip_join_words].
  destruct L as [|t L]; [done|]. inversion HF as [|? ? Ht _]; subst.
  destruct Ht as [Hne Ht]. destruct t as [|x t]; [done|].
  inversion Ht as [|? ? [Hx _] _]; subst.
  destruct L; simpl; by rewrite Hx.
Qed.

(** ** Parser *)

Example parse_empty : parse_preposition_case [] = None.
Proof. reflexivity. Qed.

Example parse_no_separator : parse_preposition_case (lit "nurascii") = None.
Proof. vm_compute. reflexivity. Qed.

Example parse_three_parts : parse_preposition_case (lit "a + B + c") = None.
Proof. vm_compute. reflexivity. Qed.

Example parse_lower_case_letter :
  parse_preposition_case (lit "über+a") = Some (lit "über", Accusative).
Proof. vm_compute. reflexivity. Qed.

Example parse_double_plus :
  parse_preposition_case (lit "a++b") = Some (lit "a", UnknownCase).
Proof. vm_compute. reflexivity. Qed.

Lemma split_ws_aux_word t cur :
  Forall word_char t -> split_ws_aux t cur = flush (rev t ++ cur).
Proof.
  intros Ht. revert cur. induction Ht as [|c t [Hc _] Ht IH]; intros cur; [done|].
  cbn [split_ws_aux rev]. rewrite Hc, IH. by rewrite <- app_assoc.
Qed.

Lemma split_ws_word t : word_tok t -> split_ws t = [t].
Proof.
  intros [Hne Ht]. unfold split_ws. rewrite split_ws_aux_word, app_nil_r by done.
  destruct (rev t) eqn:E; cbn [flush].
  - apply (f_equal (@rev N)) in E. rewrite rev_involutive in E. done.
  - by rewrite <- E, rev_involutive.
Qed.

(** What the parser returns on [l ++ w1 ++ "+" ++ w2 ++ r] when neither
    side contains a '+' and both contain a word: the words of [l] joined
    by single spaces, and the case looked up for the words of [r]. *)
Lemma parse_notation l w1 w2 r :
  plus_free l -> plus_free r -> split_ws l ≠ [] -> split_ws r ≠ [] ->
  all_space w1 -> all_space w2 ->
  parse_preposition_case (l ++ w1 ++ PLUS ++ w2 ++ r)
  = Some (join SPACE (split_ws l),
          case_mapping (upper (join SPACE (split_ws r)))).
Proof.
  intros Hl Hr Htl Htr H1 H2. unfold parse_preposition_case.
  assert (is_empty (l ++ w1 ++ PLUS ++ w2 ++ r) = false) as -> by (by destruct l, w1).
  unfold normalize. rewrite split_ws_notation by done.
  pose proof (split_ws_words l Hl) as Wl. pose proof (split_ws_words r Hr) as Wr.
  rewrite contains_sep_words by done. cbn [negb].
  rewrite split_on_sep_words by done.
  by rewrite !strip_join_words by done.
Qed.

Lemma parse_letter p c g w1 w2 :
  normal_prep p -> case_letter c g -> all_space w1 -> all_space w2 ->
  parse_preposition_case (p ++ w1 ++ PLUS ++ w2 ++ [c]) = Some (p, g).
Proof.
  intros (Hne & Hpf & Hn) Hc H1 H2.
  assert (split_ws p ≠ []) as Hw by (intros E; rewrite E in Hn; by subst).
  rewrite parse_notation; [| done | by destruct Hc; repeat constructor
                            | done | by destruct Hc | done | done].
  rewrite Hn. by destruct Hc.
Qed.

(** C2 (as amended): for every non-empty preposition [p] without '+' whose
    whitespace is already normalised, and every case letter A, D or G,
    the notations [p + " + " + c], [p + "+" + c] and [p], whitespace, "+",
    whitespace, [c] all parse to [(p, case of c)]. *)
Theorem parse_round_trip p c g w1 w2 :
  normal_prep p -> case_letter c g -> all_space w1 -> all_space w2 ->
  parse_preposition_case (p ++ SEP ++ [c]) = Some (p, g)
  ∧ parse_preposition_case (p ++ PLUS ++ [c]) = Some (p, g)
  ∧ parse_preposition_case (p ++ w1 ++ PLUS ++ w2 ++ [c]) = Some (p, g).
Proof.
  intros Hp Hc H1 H2. split; [|split].
  - apply (parse_letter p c g [32] [32]); [done | done | |]; by repeat constructor.
  - apply (parse_letter p c g [] []); [done | done | |]; by constructor.
  - by apply parse_letter.
Qed.

Lemma parse_round_trip_witness :
  parse_preposition_case (lit "über" ++ SEP ++ lit "A") = Some (lit "über", Accusative)
  ∧ parse_preposition_case (lit "über" ++ PLUS ++ lit "A") = Some (lit "über", Accusative)
  ∧ parse_preposition_case (lit "über" ++ [32; 9] ++ PLUS ++ [32; 32] ++ lit "A")
    = Some (lit "über", Accusative).
Proof.
  apply (parse_round_trip (lit "über") 65 Accusative [32; 9] [32; 32]).
  - split; [done | split; [by repeat constructor | reflexivity]].
  - constructor.
  - by repeat constructor.
  - by repeat constructor.
Defined.

(** C2 fails as stated: the empty string, a string containing '+' and a
    string with a leading space are not given back. *)
Lemma parse_round_trip_counterexample :
  parse_preposition_case ([] ++ lit " + " ++ lit "A") = None
  ∧ parse_preposition_case (lit "a+b" ++ lit " + " ++ lit "A") = None
  ∧ parse_preposition_case (lit " auf" ++ lit " + " ++ lit "A")
    = Some (lit "auf", Accusative).
Proof. vm_compute. done. Qed.


Lemma case_mapping_unknown code :
  code ≠ lit "A" -> code ≠ lit "D" -> code ≠ lit "G" -> case_mapping code = UnknownCase.
Proof.
  intros HA HD HG. unfold case_mapping, str_eqb.
  by rewrite !bool_decide_eq_false_2.
Qed.



(** The same for a whole family of notations: any left part with a word,
    any one-word code, any whitespace around the '+'. *)
Lemma parse_unknown_word l w1 w2 code :
  plus_free l -> split_ws l ≠ [] -> word_tok code ->
  all_space w1 -> all_space w2 ->
  upper code ≠ lit "A" -> upper code ≠ lit "D" -> upper code ≠ lit "G" ->
  parse_preposition_case (l ++ w1 ++ PLUS ++ w2 ++ code)
  = Some (join SPACE (split_ws l), UnknownCase).
Proof.
  intros Hl Hw Hcode H1 H2 HA HD HG.
  assert (plus_free code) as Hpf.
  { destruct Hcode as [_ Hc]. eapply Forall_impl; [exact Hc|]. by intros ? [_ ?]. }
  rewrite parse_notation by (done || by rewrite split_ws_word).
  rewrite (split_ws_word code) by done. cbn [join]. by rewrite case_mapping_unknown.
Qed.

(** ** Distractor generator *)

Lemma randbelow_lt n g : (0 < n)%nat -> ((randbelow n g).1 < n)%nat.
Proof. intros Hn. cbn. apply Nat.mod_upper_bound. lia. Qed.

(** One round of the sampling loop: the element drawn, followed by what
    is left in the first [m] slots, is a rearrangement of the first
    [S m] slots. *)
Lemma sample_round (pool : list str) (m j : nat) x v :
  (j <= m)%nat -> pool !! j = Some x -> pool !! m = Some v ->
  take (S m) pool ≡ₚ x :: take m (<[j := v]> pool).
Proof.
  intros Hj Hx Hv. rewrite (take_S_r _ _ v) by done.
  destruct (decide (j = m)) as [->|Hne].
  - assert (x = v) as -> by congruence.
    rewrite take_insert_ge by done. by rewrite Permutation_app_comm.
  - assert (j < m)%nat as Hlt by lia.
    rewrite take_insert_lt by done.
    assert (take m pool !! j = Some x) as Hx' by (by rewrite lookup_take_lt).
    rewrite insert_take_drop by (by eapply lookup_lt_Some).
    rewrite <- (take_drop_middle (take m pool) j x) at 1 by done.
    rewrite <- !app_assoc. cbn [app].
    rewrite <- !Permutation_middle. rewrite Permutation_app_comm. cbn [app].
    do 2 apply Permutation_skip. rewrite app_nil_r. apply Permutation_app_comm.
Qed.

(** [random.sample]: [k] distinct elements of the first [m] slots. *)
Lemma sample_pool_spec k : forall (pool : list str) m g,
  (k <= m)%nat -> (m <= length pool)%nat -> NoDup (take m pool) ->
  let r := (sample_pool pool m k g).1 in
  length r = k ∧ NoDup r ∧ r ⊆ take m pool.
Proof.
  induction k as [|k IH]; intros pool m g Hk Hm Hnd; cbn [sample_pool].
  - cbn. split; [done|]. split; [constructor | set_solver].
  - destruct m as [|m]; [lia|].
    destruct (randbelow (S m) g) as [j g1] eqn:Ej.
    assert (j < S m)%nat as Hj.
    { pose proof (randbelow_lt (S m) g ltac:(lia)) as Hlt. by rewrite Ej in Hlt. }
    replace (S m - 1)%nat with m by lia.
    destruct (lookup_lt_is_Some_2 pool j ltac:(lia)) as [x Hx].
    destruct (lookup_lt_is_Some_2 pool m ltac:(lia)) as [v Hv].
    rewrite (nth_lookup_Some _ _ _ _ Hx), (nth_lookup_Some _ _ _ _ Hv).
    pose proof (sample_round pool m j x v ltac:(lia) Hx Hv) as Hperm.
    rewrite Hperm in Hnd. apply NoDup_cons in Hnd as [Hnotin Hnd'].
    specialize (IH (<[j:=v]> pool) m g1 ltac:(lia)
                  ltac:(rewrite length_insert; lia) Hnd').
    destruct (sample_pool (<[j:=v]> pool) m k g1) as [r g2]. cbn in *.
    destruct IH as (Hlen & Hndr & Hsub).
    split; [by rewrite Hlen|]. split.
    + apply NoDup_cons. split; [|done]. intros Hin. apply Hnotin, Hsub, Hin.
    + intros y Hy. rewrite Hperm. apply elem_of_cons in Hy as [->|Hy]; [left|right].
      by apply Hsub.
Qed.

Lemma random_sample_spec (population : list str) k g :
  (k <= length population)%nat -> NoDup population ->
  ∃ r g', random_sample population k g = (Ok r, g')
          ∧ length r = k ∧ NoDup r ∧ r ⊆ population.
Proof.
  intros Hk Hnd. unfold random_sample. rewrite decide_True by done.
  pose proof (sample_pool_spec k population (length population) g Hk ltac:(lia)) as Hs.
  rewrite firstn_all in Hs. specialize (Hs Hnd).
  destruct (sample_pool population (length population) k g) as [r g']. eauto.
Qed.

Section DistractorProperties.
Context `{SetOrder}.

Lemma set_to_list_length (X : gset str) : length (set_to_list X) = size X.
Proof. by rewrite set_to_list_perm. Qed.

Lemma set_to_list_elem (X : gset str) x : x ∈ set_to_list X <-> x ∈ X.
Proof. by rewrite set_to_list_perm, elem_of_elements. Qed.

Lemma set_to_list_NoDup (X : gset str) : NoDup (set_to_list X).
Proof. rewrite set_to_list_perm. apply NoDup_elements. Qed.

Lemma all_preps_size : size all_preps = 20%nat.
Proof. vm_compute. reflexivity. Qed.

(** [generate_wrong_options] never raises; what it returns. *)
Lemma generate_wrong_options_ok (correct_preposition : str) (g : Rng) :
  ∃ wrong_options g',
    generate_wrong_options correct_preposition g = (Ok wrong_options, g')
    ∧ length wrong_options = Nat.min 3 (size (all_preps ∖ {[correct_preposition]}))
    ∧ NoDup wrong_options
    ∧ (∀ x, x ∈ wrong_options -> x ∈ all_preps ∖ {[correct_preposition]}).
Proof.
  unfold generate_wrong_options.
  set (X := all_preps ∖ {[correct_preposition]}).
  destruct (random_sample_spec (set_to_list X) (Nat.min 3 (length (set_to_list X))) g)
    as (r & g' & -> & Hlen & Hnd & Hsub); [lia | apply set_to_list_NoDup |].
  exists r, g'. split; [done|]. split; [by rewrite Hlen, set_to_list_length|].
  split; [done|]. intros x Hx. apply set_to_list_elem, Hsub, Hx.
Qed.

(** C8: whatever the random draws and the iteration order of the set,
    [generate_wrong_options] returns a list that does not contain the
    correct preposition, whose length is the smaller of 3 and the number
    of pooled prepositions other than the correct one; its elements are
    distinct members of the pool, and the pool holds at least 10
    prepositions. *)
Theorem generate_wrong_options_spec (correct_preposition : str) (g : Rng) :
  ∃ wrong_options g',
    generate_wrong_options correct_preposition g = (Ok wrong_options, g')
    ∧ (correct_preposition ∉ wrong_options)
    ∧ length wrong_options = Nat.min 3 (size (all_preps ∖ {[correct_preposition]}))
    ∧ NoDup wrong_options
    ∧ (∀ x, x ∈ wrong_options -> x ∈ all_preps)
    ∧ (10 <= size all_preps)%nat.
Proof.
  destruct (generate_wrong_options_ok correct_preposition g)
    as (r & g' & E & Hlen & Hnd & HX).
  exists r, g'. split; [exact E|]. split; [|split; [exact Hlen|split; [exact Hnd|split]]].
  - intros Hin. apply HX, elem_of_difference in Hin as [_ Hin].
    apply Hin. by apply elem_of_singleton.
  - intros x Hx. by apply HX, elem_of_difference in Hx as [Hx _].
  - rewrite all_preps_size. lia.
Qed.

End DistractorProperties.

(** ** Ordered dictionaries *)

Section Dict.
Context {V : Type}.
Implicit Types (d : list (str * V)) (k : str) (v : V).

Lemma dict_get_set_eq k v d : dict_get k (dict_set k v d) = Some v.
Proof.
  induction d as [|[k' v'] d IH]; cbn [dict_set dict_get].
  - by rewrite decide_True.
  - destruct (decide (k = k')) as [->|Hne]; cbn [dict_get].
    + by rewrite decide_True.
    + by rewrite decide_False.
Qed.

Lemma dict_get_set_ne k k' v d : k ≠ k' -> dict_get k' (dict_set k v d) = dict_get k' d.
Proof.
  intros Hne. induction d as [|[k0 v0] d IH]; cbn [dict_set dict_get].
  - by rewrite decide_False.
  - destruct (decide (k = k0)) as [->|Hne0]; cbn [dict_get].
    + by rewrite !decide_False.
    + by rewrite IH.
Qed.

Lemma dict_set_elem k v d k' v' :
  (k', v') ∈ dict_set k v d -> (k' = k ∧ v' = v) ∨ (k', v') ∈ d.
Proof.
  induction d as [|[k0 v0] d IH]; cbn [dict_set]; intros Hin.
  - apply list_elem_of_singleton in Hin. left. by inversion Hin.
  - destruct (decide (k = k0)) as [->|Hne0]; apply elem_of_cons in Hin as [E|Hin].
    + left. by inversion E.
    + right. by right.
    + right. rewrite E. by left.
    + destruct (IH Hin) as [?|?]; [by left | right; by right].
Qed.

Lemma dict_set_keys k v d x :
  x ∈ dict_keys (dict_set k v d) -> x = k ∨ x ∈ dict_keys d.
Proof.
  unfold dict_keys. intros Hin. apply list_elem_of_fmap in Hin as [[k' v'] [-> Hin]].
  apply dict_set_elem in Hin as [[-> _]|Hin]; [by left | right].
  apply list_elem_of_fmap. by exists (k', v').
Qed.

Lemma dict_set_NoDup k v d : NoDup (dict_keys d) -> NoDup (dict_keys (dict_set k v d)).
Proof.
  unfold dict_keys. induction d as [|[k0 v0] d IH]; cbn [dict_set]; intros Hnd.
  - cbn. apply NoDup_singleton.
  - cbn in Hnd. apply NoDup_cons in Hnd as [Hnotin Hnd].
    destruct (decide (k = k0)) as [->|Hne0]; cbn; apply NoDup_cons.
    + done.
    + split; [|by apply IH]. intros Hin.
      apply dict_set_keys in Hin as [->|Hin]; done.
Qed.

Lemma dict_get_elem k v d : dict_get k d = Some v -> (k, v) ∈ d.
Proof.
  induction d as [|[k0 v0] d IH]; cbn [dict_get]; [done|].
  destruct (decide (k = k0)) as [->|Hne0].
  - intros [= ->]. by left.
  - intros Hg. right. by apply IH.
Qed.


End Dict.

(** ** Loader *)

Section LoaderProperties.
Context `{SetOrder}.

(** One iteration never raises; it either leaves the dictionary alone or
    stores an entry built from the record under the record's key. *)
Lemma load_record_spec st record g :
  ∃ st' g', load_record st record g = (st', None, g') ∧
    match accepted_key record with
    | None => ls_words_data st' = ls_words_data st
    | Some (w, p) =>
      ∃ e, ls_words_data st' = dict_set (unique_key w p) e (ls_words_data st)
           ∧ e_word e = Some w ∧ e_preposition e = p
           ∧ e_record_id e = Some (rec_id record) ∧ is_Some (e_example_de e)
    end.
Proof.
  unfold load_record, accepted_key.
  destruct (dict_get (lit "Word") (rec_fields record)) as [fword|];
    [|destruct (dict_get (lit "Preposition") (rec_fields record)); eauto].
  destruct (dict_get (lit "Preposition") (rec_fields record)) as [fprep|]; [|eauto].
  destruct (is_empty (text_of fword) || is_empty (text_of fprep)); [eauto|].
  destruct (parse_preposition_case (text_of fprep)) as [[preposition case]|]; [|eauto].
  destruct (is_empty preposition || is_empty (case_name case)); [eauto|].
  destruct (generate_wrong_options_ok preposition g) as (wrong & g' & -> & _).
  do 2 eexists. split; [reflexivity|]. eexists. split; [reflexivity|].
  cbn. eauto.
Qed.

Lemma load_loop_app xs ys st g :
  load_loop (xs ++ ys) st g =
  match load_loop xs st g with
  | (st', None, g') => load_loop ys st' g'
  | r => r
  end.
Proof.
  revert st g. induction xs as [|x xs IH]; intros st g; [done|].
  cbn [app load_loop]. destruct (load_record st x g) as [[st' [e|]] g']; [done | apply IH].
Qed.

Lemma load_record_wf st record g :
  index_wf (ls_words_data st) -> index_wf (ls_words_data (load_record st record g).1.1).
Proof.
  intros [Hnd Hent].
  destruct (load_record_spec st record g) as (st' & g' & -> & Hst). cbn.
  destruct (accepted_key record) as [[w p]|]; [|by rewrite Hst].
  destruct Hst as (e & -> & Hw & Hp & Hid & Hde). split.
  - by apply dict_set_NoDup.
  - intros k' e' Hin. apply dict_set_elem in Hin as [[-> ->]|Hin]; [|by apply Hent].
    exists w. by rewrite Hp, Hid.
Qed.

(** The loop never raises, keeps the dictionary well formed, and leaves
    alone every key under which it accepts no record. *)
Lemma load_loop_spec records : forall st g,
  ∃ st' g', load_loop records st g = (st', None, g')
    ∧ (index_wf (ls_words_data st) -> index_wf (ls_words_data st'))
    ∧ ∀ k, (∀ r w p, r ∈ records -> accepted_key r = Some (w, p) -> unique_key w p ≠ k) ->
           dict_get k (ls_words_data st') = dict_get k (ls_words_data st).
Proof.
  induction records as [|r records IH]; intros st g; cbn [load_loop].
  - exists st, g. done.
  - pose proof (load_record_wf st r g) as Hwf1.
    destruct (load_record_spec st r g) as (st1 & g1 & E1 & Hst1). rewrite E1 in *. cbn in Hwf1.
    destruct (IH st1 g1) as (st' & g' & -> & Hwf & Hkeep).
    exists st', g'. split; [done|]. split; [auto|].
    intros k Hk. rewrite Hkeep.
    + destruct (accepted_key r) as [[w p]|] eqn:Ea; [|by rewrite Hst1].
      destruct Hst1 as (e & -> & _). apply dict_get_set_ne.
      eapply Hk; [left | done].
    + intros r' w p Hin. apply Hk. by right.
Qed.

Lemma index_wf_nil : index_wf [].
Proof.
  split; [constructor|]. intros k e Hin. by apply elem_of_nil in Hin.
Qed.

(** On a successful fetch the loader returns the dictionary the loop has
    built, followed by the two summary lines. *)
Lemma load_ok records g :
  ∃ st g', load_loop records (load_start records) g = (st, None, g')
    ∧ load_words_from_airtable (Ok records) g
      = (ls_words_data st,
         ls_log st ++ [LogLoaded (length (ls_words_data st));
                       LogSkipped (ls_skipped_count st)], g')
    ∧ index_wf (ls_words_data st).
Proof.
  destruct (load_loop_spec records (load_start records) g) as (st & g' & E & Hwf & _).
  exists st, g'. split; [done|]. split.
  - unfold load_words_from_airtable. fold (load_start records). by rewrite E.
  - apply Hwf, index_wf_nil.
Qed.

End LoaderProperties.

Section LoaderClaims.
Context `{SetOrder}.

(** C1 (as amended): when the fetch raises, the loader does not raise; it
    returns the built-in fallback dictionary, which has exactly one entry
    (under "achten"), and prints exactly one line, which carries the
    exception.  No total, accepted or skipped count is produced, and the
    random source is not used. *)
Theorem load_fetch_failure (e : Exn) (g : Rng) :
  load_words_from_airtable (Raise e) g = (fallback_data, [LogError e], g)
  ∧ length fallback_data = 1%nat
  ∧ dict_keys fallback_data = [lit "achten"]
  ∧ ¬ reports_counts [LogError e].
Proof.
  split; [reflexivity|]. split; [reflexivity|]. split; [reflexivity|].
  intros (total & _ & _ & Hin & _).
  apply list_elem_of_singleton in Hin. discriminate Hin.
Qed.

(** C6: the keys of the returned dictionary are pairwise distinct,
    whatever was fetched.  When the fetched list is
    [pre ++ a :: mid ++ b :: post], [a] and [b] are accepted under the
    same key and no record of [post] is accepted under that key, the
    dictionary holds under that key the entry which the iteration for [b]
    stored: it carries [b]'s word, preposition and record id. *)
Theorem load_composite_key_unique (records : list ARecord) (g : Rng) :
  let idx := (load_words_from_airtable (Ok records) g).1.1 in
  NoDup (dict_keys idx)
  ∧ ∀ pre a mid b post wa pa wb pb,
      records = pre ++ a :: mid ++ b :: post ->
      accepted_key a = Some (wa, pa) ->
      accepted_key b = Some (wb, pb) ->
      unique_key wa pa = unique_key wb pb ->
      (∀ r w p, r ∈ post -> accepted_key r = Some (w, p) ->
                unique_key w p ≠ unique_key wb pb) ->
      ∃ e st_b g_b st_b' g_b',
        load_loop (pre ++ a :: mid) (load_start records) g = (st_b, None, g_b)
        ∧ load_record st_b b g_b = (st_b', None, g_b')
        ∧ dict_get (unique_key wb pb) (ls_words_data st_b') = Some e
        ∧ dict_get (unique_key wb pb) idx = Some e
        ∧ e_word e = Some wb ∧ e_preposition e = pb
        ∧ e_record_id e = Some (rec_id b).
Proof.
  destruct (load_ok records g) as (st & g' & Eloop & -> & [Hnd _]). cbn [fst].
  split; [done|].
  intros pre a mid b post wa pa wb pb Hrec Ha Hb Hkey Hpost.
  remember (load_start records) as st0 eqn:Hst0.
  rewrite Hrec in Eloop.
  change (pre ++ a :: mid ++ b :: post) with (pre ++ (a :: mid) ++ b :: post) in Eloop.
  rewrite app_assoc, load_loop_app in Eloop.
  destruct (load_loop_spec (pre ++ a :: mid) st0 g) as (st_b & g_b & E1 & _).
  rewrite E1 in Eloop. cbn [load_loop] in Eloop.
  destruct (load_record_spec st_b b g_b) as (st1 & g1 & E2 & Hst1).
  rewrite E2 in Eloop. rewrite Hb in Hst1.
  destruct Hst1 as (e & Hwords & Hw & Hp & Hid & _).
  destruct (load_loop_spec post st1 g1) as (st' & g'' & E3 & _ & Hkeep).
  rewrite E3 in Eloop. injection Eloop as Est Eg. subst st g'.
  exists e, st_b, g_b, st1, g1.
  assert (dict_get (unique_key wb pb) (ls_words_data st1) = Some e) as Hget.
  { rewrite Hwords. apply dict_get_set_eq. }
  split; [done|]. split; [done|]. split; [done|]. split; [|done].
  rewrite Hkeep; [done|]. exact Hpost.
Qed.

End LoaderClaims.

(** C1 fails as stated: on a failed fetch nothing exposes a total, an
    accepted or a skipped count. *)
Lemma load_fetch_failure_counterexample :
  ¬ (let '(idx, log, _) :=
       @load_words_from_airtable elements_order
         (Raise (SourceError (lit "connection refused"))) zero_rng in
     idx ≠ [] ∧ reports_counts log
     ∧ LogError (SourceError (lit "connection refused")) ∈ log).
Proof.
  cbv beta iota delta [load_words_from_airtable].
  intros (_ & (total & _ & _ & Hin & _) & _).
  apply list_elem_of_singleton in Hin. discriminate Hin.
Qed.

Lemma load_composite_key_unique_witness :
  let idx := (@load_words_from_airtable elements_order
                (Ok [denken_rec1; denken_rec2]) zero_rng).1.1 in
  dict_keys idx = [lit "denken_an"]
  ∧ ∃ e, dict_get (unique_key (lit "denken") (lit "an")) idx = Some e
         ∧ e_record_id e = Some (rec_id denken_rec2).
Proof.
  destruct (@load_composite_key_unique elements_order [denken_rec1; denken_rec2] zero_rng)
    as [_ Hlast].
  destruct (Hlast [] denken_rec1 [] denken_rec2 []
              (lit "denken") (lit "an") (lit "denken") (lit "an"))
    as (e & _ & _ & _ & _ & _ & _ & _ & Hget & _ & _ & Hid);
    [reflexivity | vm_compute; reflexivity | vm_compute; reflexivity | reflexivity
    | intros r w p Hin; by apply elem_of_nil in Hin |].
  split; [vm_compute; reflexivity|].
  exists e. split; [exact Hget | exact Hid].
Defined.

(** ** Quiz sessions and grading *)

Lemma stats_of_set bot uid st u :
  stats_of (set_stats bot uid st) u = if decide (uid = u) then st else stats_of bot u.
Proof.
  unfold stats_of, set_stats. cbn [user_stats]. rewrite lookup_insert.
  by destruct (decide (uid = u)).
Qed.

Lemma stats_of_init bot uid u : stats_of (init_stats bot uid) u = stats_of bot u.
Proof.
  unfold stats_of, init_stats. destruct (user_stats bot !! uid) eqn:E; [done|].
  cbn [user_stats]. rewrite lookup_insert. destruct (decide (uid = u)) as [<-|]; [|done].
  by rewrite E.
Qed.

Lemma send_result_stats bot uid st r u :
  stats_of (send_result bot uid st r).1 u = stats_of bot u.
Proof. unfold send_result. by destruct (total_questions st =? 0)%Z. Qed.

(** Grading changes nobody's counters except by one [stats_step]. *)
Lemma handle_quiz_answer_step bot data uid u :
  stats_step (stats_of bot u) (stats_of (handle_quiz_answer bot data uid).1 u).
Proof.
  unfold handle_quiz_answer.
  destruct (current_quiz bot !! uid) as [q|]; [|constructor].
  destruct (user_stats bot !! uid) as [st0|] eqn:Est; [|constructor].
  assert (∀ st, stats_step (stats_of bot u) (if decide (uid = u) then st else stats_of bot u)
                ∨ uid = u) as Hother.
  { intros st. destruct (decide (uid = u)); [by right | left; constructor]. }
  assert (uid = u -> stats_of bot u = st0) as Hme.
  { intros <-. unfold stats_of. by rewrite Est. }
  destruct (get_alternative_prepositions _ _ _) as [alts|e].
  2:{ cbn [fst]. rewrite stats_of_set. destruct (decide (uid = u)) as [E|]; [|constructor].
      rewrite (Hme E). constructor. }
  destruct (str_eqb _ _); [|destruct (existsb _ _); [destruct (List.find _ _)|]];
    rewrite ?send_result_stats; cbn [fst]; rewrite !stats_of_set;
    (destruct (decide (uid = u)) as [E|]; [rewrite (Hme E) | idtac]); constructor.
Qed.

(** After the "Not quite right" message the streak is 0. *)
Lemma handle_quiz_answer_incorrect bot data uid :
  is_incorrect (handle_quiz_answer bot data uid).2 ->
  streak (stats_of (handle_quiz_answer bot data uid).1 uid) = 0%Z.
Proof.
  unfold handle_quiz_answer.
  destruct (current_quiz bot !! uid) as [q|]; [|done].
  destruct (user_stats bot !! uid) as [st0|]; [|done].
  destruct (get_alternative_prepositions _ _ _) as [alts|e]; [|done].
  destruct (str_eqb _ _); [|destruct (existsb _ _); [destruct (List.find _ _)|]];
    unfold send_result; try destruct (Z.eqb _ _); cbn [fst snd is_incorrect]; try done.
  intros _. unfold stats_of. cbn [user_stats set_stats]. by rewrite lookup_insert_eq.
Qed.

(** A graded answer consumes the session. *)
Lemma handle_quiz_answer_consumes bot x uid bot' r :
  handle_quiz_answer bot x uid = (bot', Sent r) -> r ≠ StartNewQuizFirst ->
  current_quiz bot' !! uid = None.
Proof.
  unfold handle_quiz_answer.
  destruct (current_quiz bot !! uid) as [q|]; [|by intros [= <- <-]].
  destruct (user_stats bot !! uid) as [st0|]; [|done].
  destruct (get_alternative_prepositions _ _ _) as [alts|e]; [|done].
  destruct (str_eqb _ _); [|destruct (existsb _ _); [destruct (List.find _ _)|]];
    unfold send_result; try destruct (Z.eqb _ _); try done;
    intros [= <- <-] _; cbn [current_quiz]; apply lookup_delete_eq.
Qed.

(** C4: an answer submitted while no session is pending, in particular
    right after a graded answer of the same user, gets the
    "Start a new quiz first!" message and changes nothing: no counter of
    any user, no session, no vocabulary. *)
Theorem answer_without_session bot uid y :
  (current_quiz bot !! uid = None
   ∨ ∃ bot0 x r, handle_quiz_answer bot0 x uid = (bot, Sent r) ∧ r ≠ StartNewQuizFirst) ->
  handle_quiz_answer bot y uid = (bot, Sent StartNewQuizFirst).
Proof.
  intros Hno.
  assert (current_quiz bot !! uid = None) as E.
  { destruct Hno as [E|(bot0 & x & r & Hx & Hr)]; [done|].
    by eapply handle_quiz_answer_consumes. }
  unfold handle_quiz_answer. by rewrite E.
Qed.

Lemma stats_step_ok st st' :
  stats_step st st' -> streak_ok st ->
  streak_ok st' ∧ (best_streak st <= best_streak st')%Z.
Proof.
  unfold streak_ok. intros Hstep [H0 Hb].
  destruct Hstep; cbn [count_question count_correct reset_streak streak best_streak];
    try destruct (Z.ltb_spec (best_streak st) (streak st + 1)); lia.
Qed.

Lemma stats_step_total st st' :
  stats_step st st' -> (0 <= total_questions st)%Z -> (0 <= total_questions st')%Z.
Proof. intros Hstep H0. destruct Hstep; cbn; lia. Qed.

Lemma start_quiz_stats bot uid g : user_stats (start_quiz bot uid g).1.1 = user_stats bot.
Proof.
  unfold start_quiz. destruct (random_choice _ g) as [[key|e] g1]; [|done].
  destruct (dict_get key (words_data bot)) as [word_data|]; [|done].
  destruct (e_word word_data); [|done].
  by destruct (random_shuffle _ g1).
Qed.

Section EventProperties.
Context `{SetOrder}.

Lemma refresh_stats bot fetch g :
  user_stats (refresh_words_data bot fetch g).1 = user_stats bot.
Proof.
  unfold refresh_words_data. by destruct (load_words_from_airtable fetch g) as [[wd log] g'].
Qed.

(** One event changes nobody's counters except by one [stats_step]. *)
Lemma step_stats bot ev g u :
  stats_step (stats_of bot u) (stats_of (step bot ev g).1.1 u).
Proof.
  destruct ev as [uid|uid|uid|uid|uid fetch|uid data]; cbn [step].
  - cbn [fst]. rewrite stats_of_init. constructor.
  - unfold stats_of. rewrite start_quiz_stats. constructor.
  - constructor.
  - cbn [fst stats]. rewrite stats_of_init. constructor.
  - pose proof (refresh_stats bot fetch g) as E.
    destruct (refresh_words_data bot fetch g) as [bot' g']. cbn [fst] in *.
    unfold stats_of. rewrite E. constructor.
  - unfold handle_button_click.
    rewrite <- (stats_of_init bot uid u). generalize (init_stats bot uid) as bot1.
    intros bot1. destruct (startswith _ data).
    { unfold stats_of. rewrite start_quiz_stats. constructor. }
    destruct (str_eqb data _).
    { cbn [fst stats]. rewrite stats_of_init. constructor. }
    destruct (str_eqb data _); [constructor|].
    destruct (startswith _ data); [|constructor].
    cbn [fst]. apply handle_quiz_answer_step.
Qed.

Lemma run_app evs1 evs2 bot g :
  run bot (evs1 ++ evs2) g = run (run bot evs1 g).1 evs2 (run bot evs1 g).2.
Proof.
  revert bot g. induction evs1 as [|ev evs1 IH]; intros bot g; [done|].
  cbn [app run]. destruct (step bot ev g) as [[bot' o] g']. apply IH.
Qed.

Lemma run_stats evs : forall bot g u,
  streak_ok (stats_of bot u) ->
  streak_ok (stats_of (run bot evs g).1 u)
  ∧ (best_streak (stats_of bot u) <= best_streak (stats_of (run bot evs g).1 u))%Z.
Proof.
  induction evs as [|ev evs IH]; intros bot g u Hok; cbn [run].
  - cbn [fst]. split; [done | lia].
  - pose proof (step_stats bot ev g u) as Hstep.
    destruct (step bot ev g) as [[bot' o] g']. cbn [fst] in Hstep.
    destruct (stats_step_ok _ _ Hstep Hok) as [Hok' Hle].
    destruct (IH bot' g' u Hok') as [Hok'' Hle']. split; [done | lia].
Qed.

(** The number of questions counted for a user never becomes negative. *)
Lemma run_total evs : forall bot g u,
  (0 <= total_questions (stats_of bot u))%Z ->
  (0 <= total_questions (stats_of (run bot evs g).1 u))%Z.
Proof.
  induction evs as [|ev evs IH]; intros bot g u H0; cbn [run]; [done|].
  pose proof (step_stats bot ev g u) as Hstep.
  destruct (step bot ev g) as [[bot' o] g']. cbn [fst] in Hstep.
  apply IH. by eapply stats_step_total.
Qed.

(** C5: for a user whose counters start at zero, after every sequence of
    events the streak is non-negative and at most the best streak; the
    best streak never decreases when further events are processed; and
    right after an answer graded incorrect the streak is exactly 0. *)
Theorem streak_invariants bot uid evs1 evs2 g :
  stats_of bot uid = zero_stats ->
  let bot1 := (run bot evs1 g).1 in
  let g1 := (run bot evs1 g).2 in
  let bot2 := (run bot1 evs2 g1).1 in
  (0 <= streak (stats_of bot1 uid))%Z
  ∧ (streak (stats_of bot1 uid) <= best_streak (stats_of bot1 uid))%Z
  ∧ (best_streak (stats_of bot1 uid) <= best_streak (stats_of bot2 uid))%Z
  ∧ ∀ data,
      is_incorrect (step bot1 (ButtonClick uid data) g1).1.2 ->
      streak (stats_of (step bot1 (ButtonClick uid data) g1).1.1 uid) = 0%Z.
Proof.
  intros Hzero bot1 g1 bot2.
  assert (streak_ok (stats_of bot uid)) as Hok by (rewrite Hzero; by split).
  destruct (run_stats evs1 bot g uid Hok) as [[H0 Hb] _]. fold bot1 in H0, Hb.
  destruct (run_stats evs2 bot1 g1 uid (conj H0 Hb)) as [_ Hmono]. fold bot2 in Hmono.
  split; [done|]. split; [done|]. split; [done|].
  intros data. cbn [step]. unfold handle_button_click.
  destruct (startswith _ data).
  { unfold start_quiz. destruct (random_choice _ g1) as [[key|e] g2]; [|done].
    destruct (dict_get key _) as [word_data|]; [|done].
    destruct (e_word word_data); [|done]. by destruct (random_shuffle _ g2). }
  destruct (str_eqb data _); [done|].
  destruct (str_eqb data _); [done|].
  destruct (startswith _ data); [|done].
  cbn [fst snd]. apply handle_quiz_answer_incorrect.
Qed.

End EventProperties.

(** ** Starting a quiz *)

Lemma start_quiz_empty bot uid g :
  words_data bot = [] -> start_quiz bot uid g = (bot, Raised IndexError, g).
Proof. intros Hempty. unfold start_quiz. by rewrite Hempty. Qed.

Lemma start_quiz_sent_nonempty bot uid g bot' r g' :
  start_quiz bot uid g = (bot', Sent r, g') -> words_data bot ≠ [].
Proof. intros Hsent Hempty. by rewrite (start_quiz_empty bot uid g Hempty) in Hsent. Qed.

(** C10: on an empty vocabulary [start_quiz] raises [IndexError] out of
    [random.choice] for every user and every random source; it sends
    nothing and stores no session.  So a quiz is only ever sent from a
    non-empty vocabulary. *)
Theorem start_quiz_empty_index bot uid g :
  words_data bot = [] ->
  start_quiz bot uid g = (bot, Raised IndexError, g)
  ∧ ∀ bot' r g', start_quiz bot uid g ≠ (bot', Sent r, g').
Proof.
  intros Hempty. pose proof (start_quiz_empty bot uid g Hempty) as E.
  split; [exact E|]. intros bot' r g'. by rewrite E.
Qed.

Lemma start_quiz_empty_index_witness :
  start_quiz (fresh_bot []) 7 zero_rng = (fresh_bot [], Raised IndexError, zero_rng)
  ∧ ∀ bot' r g', start_quiz (fresh_bot []) 7 zero_rng ≠ (bot', Sent r, g').
Proof. apply (start_quiz_empty_index (fresh_bot []) 7 zero_rng). reflexivity. Defined.

Lemma fallback_choice g :
  random_choice (dict_keys fallback_data) g
  = (Ok (lit "achten"), {| draws := draws g; pos := S (pos g) |}).
Proof.
  unfold random_choice, randbelow.
  change (dict_keys fallback_data) with [lit "achten"].
  cbn [length]. by rewrite Nat.mod_1_r.
Qed.

Section FallbackProperties.
Context `{SetOrder}.

(** C9: the fallback entry has no 'word', no 'example_de' and no
    'record_id', which every entry built from fetched records has;
    therefore, on the fallback dictionary, [start_quiz] raises
    [KeyError('word')] without storing a session and
    [get_alternative_prepositions] raises [KeyError('word')]. *)
Theorem fallback_entries_lack_word :
  (∀ k e, (k, e) ∈ fallback_data ->
     e_word e = None ∧ e_example_de e = None ∧ e_record_id e = None)
  ∧ (∀ records g k e,
       (k, e) ∈ (load_words_from_airtable (Ok records) g).1.1 ->
       is_Some (e_word e) ∧ is_Some (e_example_de e) ∧ is_Some (e_record_id e))
  ∧ (∀ bot uid g, words_data bot = fallback_data ->
       ∃ g', start_quiz bot uid g = (bot, Raised (KeyError (lit "word")), g'))
  ∧ (∀ word current_preposition,
       get_alternative_prepositions fallback_data word current_preposition
       = Raise (KeyError (lit "word"))).
Proof.
  split; [|split; [|split]].
  - intros k e Hin. apply list_elem_of_singleton in Hin. by injection Hin as -> ->.
  - intros records g k e Hin.
    destruct (load_ok records g) as (st & g' & _ & E & [_ Hent]).
    rewrite E in Hin. destruct (Hent k e Hin) as (w & -> & _ & Hde & Hid). eauto.
  - intros bot uid g Hfb. unfold start_quiz. rewrite Hfb, fallback_choice. eauto.
  - reflexivity.
Qed.

End FallbackProperties.

(** ** Alternative prepositions *)









Example alternative_answer_example :
  handle_quiz_answer denken_bot (lit "answer_über") 7
  = ({| words_data := denken_index; current_quiz := ∅;
        user_stats := {[ 7%Z := {| total_questions := 1; correct_answers := 1;
                                   streak := 1; best_streak := 1 |} ]} |},
     Sent (AlsoCorrectText (lit "denken") (lit "über") (lit "A")
             (lit "Ich denke über das Problem nach.") (lit "an + A")
             (lit "Ich denke an dich.")
             (utf8_decode [240; 159; 135; 172; 240; 159; 135; 167]
                ++ lit " English: think of" ++ [10])
             {| total_questions := 1; correct_answers := 1;
                streak := 1; best_streak := 1 |})).
Proof. vm_compute. reflexivity. Qed.

Lemma answer_without_session_witness :
  handle_quiz_answer graded_bot (lit "answer_auf") 7 = (graded_bot, Sent StartNewQuizFirst).
Proof.
  apply (answer_without_session graded_bot 7 (lit "answer_auf")).
  right. exists denken_bot, (lit "answer_an"), graded_reply. split.
  - vm_compute. reflexivity.
  - vm_compute. discriminate.
Defined.

Example graded_bot_stats :
  stats_of graded_bot 7
  = {| total_questions := 1; correct_answers := 1; streak := 1; best_streak := 1 |}.
Proof. vm_compute. reflexivity. Qed.

Lemma streak_invariants_witness :
  let evs1 := [ButtonClick 7 (lit "answer_mit")] in
  let evs2 := [CmdQuiz 7; ButtonClick 7 (lit "answer_an")] in
  let bot1 := (@run elements_order denken_bot evs1 zero_rng).1 in
  let g1 := (@run elements_order denken_bot evs1 zero_rng).2 in
  let bot2 := (@run elements_order bot1 evs2 g1).1 in
  (0 <= streak (stats_of bot1 7))%Z
  ∧ (streak (stats_of bot1 7) <= best_streak (stats_of bot1 7))%Z
  ∧ (best_streak (stats_of bot1 7) <= best_streak (stats_of bot2 7))%Z
  ∧ ∀ data,
      is_incorrect (@step elements_order bot1 (ButtonClick 7 data) g1).1.2 ->
      streak (stats_of (@step elements_order bot1 (ButtonClick 7 data) g1).1.1 7) = 0%Z.
Proof.
  apply (@streak_invariants elements_order denken_bot 7
           [ButtonClick 7 (lit "answer_mit")]
           [CmdQuiz 7; ButtonClick 7 (lit "answer_an")] zero_rng).
  reflexivity.
Defined.

(** A wrong answer, then a new quiz answered correctly. *)
Example wrong_then_right :
  (@step elements_order denken_bot (ButtonClick 7 (lit "answer_mit")) zero_rng).1.2
  = Sent (NotQuiteText (lit "denken") (lit "an + A") (lit "Ich denke an dich.")
            (context_info_of (session_of (lit "denken") denken_an))
            (alternatives_text_of (lit "denken") [alt_of denken_ueber])
            {| total_questions := 1; correct_answers := 0; streak := 0; best_streak := 0 |})
  ∧ stats_of (@run elements_order denken_bot
                [ButtonClick 7 (lit "answer_mit"); CmdQuiz 7;
                 ButtonClick 7 (lit "answer_an")] zero_rng).1 7
    = {| total_questions := 2; correct_answers := 1; streak := 1; best_streak := 1 |}.
Proof. vm_compute. split; reflexivity. Qed.

Lemma fallback_entries_lack_word_witness :
  ∃ g', start_quiz (fresh_bot fallback_data) 7 zero_rng
        = (fresh_bot fallback_data, Raised (KeyError (lit "word")), g').
Proof.
  destruct (@fallback_entries_lack_word elements_order) as (_ & _ & Hstart & _).
  apply Hstart. reflexivity.
Defined.

(** After a failed fetch at start-up no quiz can be served. *)
Example fallback_bot_cannot_quiz :
  let bot := (@init_bot elements_order (Raise (SourceError (lit "unreachable"))) zero_rng).1 in
  (@step elements_order bot (CmdQuiz 7) zero_rng).1
  = (bot, Raised (KeyError (lit "word"))).
Proof. vm_compute. reflexivity. Qed.

Example sample_distractors :
  (@generate_wrong_options elements_order (lit "an") zero_rng).1
  = Ok (lit <$> ["zu"; "ohne"; "auf"]%string).
Proof. vm_compute. reflexivity. Qed.

(** On a successful fetch the three counts are printed. *)
Example load_success_log :
  (@load_words_from_airtable elements_order
     (Ok [denken_rec1; {| rec_id := lit "rec0"; rec_fields := [] |}; denken_rec2])
     zero_rng).1.2
  = [ LogFound 3;
      LogRecordFields [lit "Word"; lit "Preposition"];
      LogRecordFields [];
      LogSkippedMissing [];
      LogRecordFields [lit "Word"; lit "Preposition"; lit "Example DE"];
      LogLoaded 1;
      LogSkipped 1 ].
Proof. vm_compute. reflexivity. Qed.

(* ===================================================================== *)
(** * Further properties *)
(* ===================================================================== *)

(** ** Parser: rejected notations *)

Lemma contains_sep_has_plus t : contains SEP t = true -> ¬ plus_free t.
Proof.
  induction t as [|c t IH]; [done|]. cbn [contains]. intros Hc Hpf.
  inversion Hpf as [|? ? Hc43 Hpf']; subst.
  apply orb_true_iff in Hc as [Hs|Hc]; [|by apply IH].
  unfold SEP in Hs. destruct t as [|d t]; cbn [startswith] in Hs.
  - by rewrite andb_false_r in Hs.
  - apply andb_true_iff in Hs as [_ Hs]. apply andb_true_iff in Hs as [Hd _].
    apply N.eqb_eq in Hd. inversion Hpf' as [|? ? Hd43 _]; subst. done.
Qed.

Lemma join_space_plus_free L : Forall plus_free L -> plus_free (join SPACE L).
Proof.
  induction 1 as [|t L Ht HL IH]; [constructor|].
  destruct L as [|t2 L]; [done|]. rewrite join_cons2.
  apply Forall_app. split; [done|]. apply Forall_app. split; [|done].
  by repeat constructor.
Qed.

Lemma words_plus_free L : Forall word_tok L -> Forall plus_free L.
Proof.
  intros HL. eapply Forall_impl; [exact HL|].
  intros t [_ Ht]. eapply Forall_impl; [exact Ht|]. by intros c [_ ?].
Qed.

Lemma normalize_plus_free s : plus_free s -> plus_free (normalize s).
Proof.
  intros Hs. unfold normalize. rewrite split_ws_strip, replace_plus_free by done.
  by apply join_space_plus_free, words_plus_free, split_ws_words.
Qed.

(** X1: a notation without any '+' is rejected. *)
Theorem parse_without_plus s :
  plus_free s -> parse_preposition_case s = None.
Proof.
  intros Hs. unfold parse_preposition_case. destruct (is_empty s); [done|].
  destruct (contains SEP (normalize s)) eqn:Hc; [|done].
  destruct (contains_sep_has_plus _ Hc). by apply normalize_plus_free.
Qed.

Lemma parse_without_plus_witness :
  parse_preposition_case (lit "warten auf") = None.
Proof. apply parse_without_plus. by repeat constructor. Defined.

(** The words of a notation, for any left and right side. *)
Lemma split_ws_plus a b :
  split_ws (replace PLUS SEP (a ++ PLUS ++ b))
  = split_ws (replace PLUS SEP a) ++ [43] :: split_ws (replace PLUS SEP b).
Proof.
  rewrite !replace_plus_app.
  change (replace PLUS SEP PLUS) with (32 :: 43 :: [32]).
  unfold split_ws at 1.
  change (replace PLUS SEP a ++ (32 :: 43 :: [32]) ++ replace PLUS SEP b)
    with (replace PLUS SEP a ++ 32 :: ([43] ++ 32 :: replace PLUS SEP b)).
  by rewrite split_ws_aux_space.
Qed.

Lemma contains_sep_after_plus t : plus_free t -> contains SEP (43 :: t) = false.
Proof.
  intros Ht. cbn [contains]. apply orb_false_iff. split; [done|].
  destruct (contains SEP t) eqn:Hc; [|done]. by destruct (contains_sep_has_plus _ Hc).
Qed.

Lemma contains_sep_before_plus a : plus_free a -> contains SEP (a ++ [32; 43]) = false.
Proof.
  induction 1 as [|c a Hc Ha IH]; [done|].
  cbn [app contains]. rewrite IH, orb_false_r.
  unfold SEP. cbn [startswith].
  destruct a as [|d a]; cbn [app].
  - by rewrite andb_false_r.
  - inversion Ha as [|? ? Hd _]; subst.
    destruct (N.eqb_spec 43 d) as [E|_]; [by subst|]. by rewrite andb_false_r.
Qed.

(** X2: a notation with nothing but whitespace on one side of its only
    '+' is rejected. *)
Theorem parse_missing_side l r :
  plus_free l -> plus_free r -> split_ws l = [] ∨ split_ws r = [] ->
  parse_preposition_case (l ++ PLUS ++ r) = None.
Proof.
  intros Hl Hr Hside. unfold parse_preposition_case.
  destruct (is_empty _); [done|].
  assert (contains SEP (normalize (l ++ PLUS ++ r)) = false) as ->; [|done].
  unfold normalize. rewrite split_ws_strip, split_ws_plus.
  rewrite !replace_plus_free by done.
  pose proof (words_plus_free _ (split_ws_words l Hl)) as Wl.
  pose proof (words_plus_free _ (split_ws_words r Hr)) as Wr.
  destruct (split_ws l) as [|t L] eqn:El.
  - cbn [app]. destruct (split_ws r) as [|t R]; [done|].
    rewrite join_cons2. apply contains_sep_after_plus.
    apply Forall_app. split; [by repeat constructor|]. by apply join_space_plus_free.
  - destruct Hside as [?|Er]; [done|]. rewrite Er.
    rewrite join_app by done.
    change (SPACE ++ join SPACE [[43]]) with [32; 43].
    apply contains_sep_before_plus. by apply join_space_plus_free.
Qed.

Lemma parse_missing_side_witness :
  parse_preposition_case (lit "auf " ++ PLUS ++ lit "  ") = None.
Proof.
  apply parse_missing_side; [by repeat constructor | by repeat constructor |].
  right. reflexivity.
Defined.

(** X3: a notation with two '+' signs separating three parts that each
    contain a word is rejected. *)
Theorem parse_three_parts_rejected l m r :
  plus_free l -> plus_free m -> plus_free r ->
  split_ws l ≠ [] -> split_ws m ≠ [] -> split_ws r ≠ [] ->
  parse_preposition_case (l ++ PLUS ++ m ++ PLUS ++ r) = None.
Proof.
  intros Hl Hm Hr Wl Wm Wr. unfold parse_preposition_case.
  destruct (is_empty _); [done|].
  destruct (negb _); [done|].
  assert (split_on SEP (normalize (l ++ PLUS ++ m ++ PLUS ++ r))
          = [join SPACE (split_ws l); join SPACE (split_ws m); join SPACE (split_ws r)])
    as ->; [|done].
  unfold normalize. rewrite split_ws_strip, split_ws_plus, split_ws_plus.
  rewrite !replace_plus_free by done.
  pose proof (split_ws_words l Hl) as Fl. pose proof (split_ws_words m Hm) as Fm.
  pose proof (split_ws_words r Hr) as Fr.
  set (L := split_ws l) in *. set (M := split_ws m) in *. set (R := split_ws r) in *.
  rewrite join_app by done.
  change ([43] :: M ++ [43] :: R) with ([[43]] ++ (M ++ [43] :: R)).
  rewrite (join_app SPACE [[43]]) by (done || by destruct M).
  change (join SPACE [[43]]) with [43].
  unfold split_on. rewrite split_on_aux_words by done.
  change (SPACE ++ [43] ++ SPACE ++ join SPACE (M ++ [43] :: R))
    with (SEP ++ join SPACE (M ++ [43] :: R)).
  rewrite split_on_aux_hit, app_nil_r, rev_involutive. f_equal.
  by apply split_on_sep_words.
Qed.

Lemma parse_three_parts_rejected_witness :
  parse_preposition_case (lit "an" ++ PLUS ++ lit " A oder auf " ++ PLUS ++ lit "D") = None.
Proof.
  apply parse_three_parts_rejected; try (by repeat constructor);
    vm_compute; discriminate.
Defined.

(** ** Parser: shape of a successful result *)

Lemma flush_tokens cur :
  Forall (fun c => isspace c = false) cur ->
  Forall (fun t => t ≠ [] ∧ Forall (fun c => isspace c = false) t) (flush cur).
Proof.
  intros Hcur. destruct cur as [|c cur]; [constructor|]. cbn [flush].
  constructor; [|constructor]. split.
  - intros Hr. apply (f_equal length) in Hr. rewrite length_rev in Hr. discriminate Hr.
  - by apply Forall_rev.
Qed.

(** The pieces of [split()] are non-empty and free of whitespace. *)
Lemma split_ws_aux_tokens s cur :
  Forall (fun c => isspace c = false) cur ->
  Forall (fun t => t ≠ [] ∧ Forall (fun c => isspace c = false) t) (split_ws_aux s cur).
Proof.
  revert cur. induction s as [|c s IH]; intros cur Hcur; cbn [split_ws_aux].
  - by apply flush_tokens.
  - destruct (isspace c) eqn:Hc.
    + apply Forall_app. split; [by apply flush_tokens | apply IH; constructor].
    + apply IH. by constructor.
Qed.

Lemma split_on_aux_head sep s : forall k cur p ps,
  split_on_aux sep s k cur = p :: ps -> ∃ a, p = rev cur ++ a.
Proof.
  induction s as [|c s IH]; intros k cur p ps; cbn [split_on_aux].
  - intros [= <- _]. exists []. by rewrite app_nil_r.
  - destruct k as [|k]; [|apply IH].
    destruct (startswith sep (c :: s)).
    + intros [= <- _]. exists []. by rewrite app_nil_r.
    + intros Hs. apply IH in Hs as [a ->]. exists (c :: a).
      cbn [rev]. by rewrite <- app_assoc.
Qed.

Lemma rstrip_idem s : rstrip (rstrip s) = rstrip s.
Proof.
  induction s as [|c s IH]; [done|]. cbn [rstrip].
  destruct (rstrip s) as [|x r] eqn:Hr.
  - destruct (isspace c) eqn:Hc; [done|]. cbn [rstrip]. by rewrite Hc.
  - cbn [rstrip]. cbn [rstrip] in IH. by rewrite IH.
Qed.

Lemma rstrip_head c s : isspace c = false -> ∃ a, rstrip (c :: s) = c :: a.
Proof.
  intros Hc. cbn [rstrip]. destruct (rstrip s) as [|x r]; [|eauto]. rewrite Hc. eauto.
Qed.

Lemma lstrip_head s : lstrip s = [] ∨ ∃ c a, lstrip s = c :: a ∧ isspace c = false.
Proof.
  induction s as [|c s IH]; [by left|]. cbn [lstrip].
  destruct (isspace c) eqn:Hc; [done|]. right. eauto.
Qed.

(** [strip()] twice is [strip()] once. *)
Lemma strip_idem s : strip (strip s) = strip s.
Proof.
  unfold strip. destruct (lstrip_head s) as [->|(c & a & -> & Hc)]; [done|].
  destruct (rstrip_head c a Hc) as [b Hb]. rewrite Hb.
  cbn [lstrip]. rewrite Hc, <- Hb. apply rstrip_idem.
Qed.

Lemma strip_nonspace_head c s : isspace c = false -> strip (c :: s) ≠ [].
Proof.
  intros Hc. unfold strip. cbn [lstrip]. rewrite Hc.
  by destruct (rstrip_head c s Hc) as [a ->].
Qed.

(** Shape of a successful parse. *)
Lemma parse_some_trimmed s p c :
  parse_preposition_case s = Some (p, c) ->
  p ≠ [] ∧ strip p = p ∧ case_name c ≠ [].
Proof.
  unfold parse_preposition_case. destruct (is_empty s); [done|].
  destruct (negb _); [done|].
  destruct (split_on SEP (normalize s)) as [|p0 [|p1 [|]]] eqn:E; try done.
  intros [= <- <-]. split; [|split; [apply strip_idem | by destruct (case_mapping _)]].
  unfold normalize in E.
  pose proof (split_ws_aux_tokens (strip (replace PLUS SEP s)) [] ltac:(constructor)) as Htok.
  fold (split_ws (strip (replace PLUS SEP s))) in Htok.
  destruct (split_ws (strip (replace PLUS SEP s))) as [|t L]; [discriminate E|].
  inversion Htok as [|? ? [Hne Ht] _]; subst.
  destruct t as [|x t]; [done|]. inversion Ht as [|? ? Hx _]; subst.
  assert (∃ rest, join SPACE ((x :: t) :: L) = x :: rest) as [rest Hj].
  { destruct L; cbn [join app]; eauto. }
  rewrite Hj in E. unfold split_on in E. rewrite split_on_aux_miss in E.
  - apply split_on_aux_head in E as [a ->]. by apply strip_nonspace_head.
  - unfold SEP. cbn [startswith].
    destruct (N.eqb_spec 32 x) as [<-|]; [discriminate Hx | done].
Qed.

(** X4: a successful parse never yields an empty preposition or an empty
    case name, and the preposition it yields is trimmed; so the
    truthiness test of line 141 only ever rejects a failed parse. *)
Theorem parse_result_trimmed s p c :
  parse_preposition_case s = Some (p, c) ->
  p ≠ [] ∧ strip p = p ∧ case_name c ≠ [].
Proof. apply parse_some_trimmed. Qed.

Lemma parse_result_trimmed_witness :
  lit "im Gegensatz zu" ≠ [] ∧ strip (lit "im Gegensatz zu") = lit "im Gegensatz zu"
  ∧ case_name Dative ≠ [].
Proof.
  apply (parse_result_trimmed (lit "  im   Gegensatz zu+d ")).
  vm_compute. reflexivity.
Defined.

Lemma upper_char_letter c x :
  upper_char c = x -> x = 65 ∨ x = 68 ∨ x = 71 -> c = x ∨ c = x + 32.
Proof.
  unfold upper_char. destruct ((97 <=? c) && (c <=? 122)) eqn:Hc; [|by left].
  apply andb_true_iff in Hc as [H1 H2]. apply N.leb_le in H1, H2.
  intros <- _. right. lia.
Qed.

(** X5: the case letter is recognised in either letter case, with any
    whitespace around the '+' and after the letter. *)
Theorem parse_letter_any_case p c g w1 w2 w3 :
  normal_prep p -> case_letter (upper_char c) g ->
  all_space w1 -> all_space w2 -> all_space w3 ->
  parse_preposition_case (p ++ w1 ++ PLUS ++ w2 ++ [c] ++ w3) = Some (p, g).
Proof.
  intros (Hne & Hpf & Hn) Hc H1 H2 H3.
  assert (split_ws p ≠ []) as Hw by (intros E; rewrite E in Hn; by subst).
  assert (c = 65 ∨ c = 68 ∨ c = 71 ∨ c = 97 ∨ c = 100 ∨ c = 103) as Hcases.
  { inversion Hc as [E|E|E]; symmetry in E;
      apply upper_char_letter in E as [->| ->]; auto 10. }
  assert (split_ws ([c] ++ w3) = [[c]]) as Hr.
  { unfold split_ws. rewrite split_ws_aux_trailing by done.
    by destruct Hcases as [->|[->|[->|[->|[->| ->]]]]]. }
  rewrite parse_notation; try done.
  - rewrite Hn, Hr. by destruct Hcases as [->|[->|[->|[->|[->| ->]]]]]; inversion Hc.
  - apply Forall_app. split; [|by apply all_space_plus_free].
    by destruct Hcases as [->|[->|[->|[->|[->| ->]]]]]; repeat constructor.
  - by rewrite Hr.
Qed.

Lemma parse_letter_any_case_witness :
  parse_preposition_case (lit "über" ++ [9] ++ PLUS ++ [] ++ lit "g" ++ [32; 10])
  = Some (lit "über", Genitive).
Proof.
  apply (parse_letter_any_case (lit "über") 103 Genitive [9] [] [32; 10]).
  - split; [done | split; [by repeat constructor | reflexivity]].
  - constructor.
  - by repeat constructor.
  - constructor.
  - by repeat constructor.
Defined.

(** ** Loader: entries, counts and keys *)

Lemma dict_set_keys_iff {V} k (v : V) d x :
  x ∈ dict_keys (dict_set k v d) <-> x = k ∨ x ∈ dict_keys d.
Proof.
  split; [apply dict_set_keys|]. unfold dict_keys.
  induction d as [|[k0 v0] d IH]; cbn [dict_set]; intros Hx.
  - destruct Hx as [->|Hx]; [by left | by apply elem_of_nil in Hx].
  - destruct (decide (k = k0)) as [->|Hne]; cbn [fmap list_fmap fst].
    + destruct Hx as [->|Hx]; [by left | done].
    + destruct Hx as [->|Hx].
      * right. apply IH. by left.
      * cbn in Hx. apply elem_of_cons in Hx as [->|Hx]; [by left | right; apply IH; by right].
Qed.

Lemma dict_set_length {V} k (v : V) d :
  (length (dict_set k v d) <= S (length d))%nat.
Proof.
  induction d as [|[k0 v0] d IH]; cbn [dict_set length]; [lia|].
  destruct (decide (k = k0)); cbn [length]; lia.
Qed.

Lemma text_of_trimmed v : is_empty (text_of v) = false ->
  text_of v ≠ [] ∧ strip (text_of v) = text_of v.
Proof.
  unfold text_of. destruct (truthy v); [|done]. intros Hne. split.
  - intros E. by rewrite E in Hne.
  - apply strip_idem.
Qed.

Lemma create_example_sentence_nonempty word preposition english :
  create_example_sentence word preposition english ≠ [].
Proof.
  unfold create_example_sentence. destruct (negb _).
  - by change (lit "I ") with [73; 32].
  - by change (lit "Ich ") with [73; 99; 104; 32].
Qed.

Section LoaderExtras.
Context `{SetOrder}.

Lemma remaining_pool_size p : Nat.min 3 (size (all_preps ∖ {[p]})) = 3%nat.
Proof.
  rewrite size_difference_alt, all_preps_size.
  assert (size (all_preps ∩ {[p]}) <= 1)%nat; [|lia].
  rewrite <- (size_singleton (C := gset str) p). apply subseteq_size.
  apply intersection_subseteq_r.
Qed.

(** Everything one iteration does. *)
Lemma load_record_full st record g :
  ∃ st' g' extra,
    load_record st record g = (st', None, g')
    ∧ ls_log st' = ls_log st ++ extra ∧ Forall record_line extra
    ∧ match accepted_key record with
      | None => ls_words_data st' = ls_words_data st
                ∧ ls_skipped_count st' = S (ls_skipped_count st)
      | Some (w, p) =>
        ∃ e, ls_words_data st' = dict_set (unique_key w p) e (ls_words_data st)
             ∧ ls_skipped_count st' = ls_skipped_count st
             ∧ well_built e
      end.
Proof.
  unfold load_record, accepted_key.
  assert (∀ (b c : bool) (log : list LogLine) l1 l2,
            record_line l1 -> record_line l2 ->
            ∃ extra, (if c then (if b then log ++ [l1] else log) ++ [l2]
                      else (if b then log ++ [l1] else log)) = log ++ extra
                     ∧ Forall record_line extra) as Hlog2.
  { intros [] [] log l1 l2 R1 R2.
    - exists [l1; l2]. split; [by rewrite <- app_assoc | by repeat constructor].
    - exists [l1]. split; [done | by repeat constructor].
    - exists [l2]. split; [done | by repeat constructor].
    - exists []. split; [by rewrite app_nil_r | constructor]. }
  assert (∀ (b : bool) (log : list LogLine) l1, record_line l1 ->
            ∃ extra, (if b then log ++ [l1] else log) = log ++ extra
                     ∧ Forall record_line extra) as Hlog1.
  { intros [] log l1 R1.
    - exists [l1]. split; [done | by repeat constructor].
    - exists []. split; [by rewrite app_nil_r | constructor]. }
  set (b := (length (ls_words_data st) <? 3)%nat).
  set (l1 := LogRecordFields (dict_keys (rec_fields record))).
  destruct (dict_get (lit "Word") (rec_fields record)) as [fword|].
  2:{ destruct (Hlog2 b (S (ls_skipped_count st) <=? 5)%nat (ls_log st) l1
                  (LogSkippedMissing (dict_keys (rec_fields record))) I I)
        as (extra & E & F).
      destruct (dict_get (lit "Preposition") (rec_fields record));
        do 3 eexists; (split; [reflexivity|]); cbn; eauto. }
  destruct (dict_get (lit "Preposition") (rec_fields record)) as [fprep|].
  2:{ destruct (Hlog2 b (S (ls_skipped_count st) <=? 5)%nat (ls_log st) l1
                  (LogSkippedMissing (dict_keys (rec_fields record))) I I)
        as (extra & E & F).
      do 3 eexists. split; [reflexivity|]. cbn. eauto. }
  destruct (Hlog1 b (ls_log st) l1 I) as (extra1 & E1 & F1).
  destruct (is_empty (text_of fword) || is_empty (text_of fprep)) eqn:Hempty.
  { do 3 eexists. split; [reflexivity|]. cbn. eauto. }
  apply orb_false_iff in Hempty as [Hw Hp].
  destruct (Hlog2 b (S (ls_skipped_count st) <=? 5)%nat (ls_log st) l1
              (LogSkippedParse (text_of fword) (text_of fprep)) I I)
    as (extra2 & E2 & F2).
  destruct (parse_preposition_case (text_of fprep)) as [[preposition case]|] eqn:Hparse.
  2:{ do 3 eexists. split; [reflexivity|]. cbn. eauto. }
  destruct (parse_some_trimmed _ _ _ Hparse) as (Hpne & Hptrim & Hcase).
  assert (is_empty preposition || is_empty (case_name case) = false) as ->.
  { destruct preposition; [done|]. by destruct case. }
  destruct (generate_wrong_options_ok preposition g)
    as (wrong & g' & -> & Hlen & Hnd & Hsub).
  rewrite remaining_pool_size in Hlen.
  destruct (text_of_trimmed fword Hw) as [Hwne Hwtrim].
  do 3 eexists. split; [reflexivity|]. cbn [ls_log ls_words_data ls_skipped_count].
  split; [exact E1|]. split; [exact F1|].
  eexists. split; [reflexivity|]. split; [reflexivity|].
  exists (text_of fword). cbn [e_word e_preposition e_wrong_options e_example].
  split; [done|]. split; [done|]. split; [done|]. split; [done|]. split; [done|].
  split; [done|]. split; [done|]. split.
  { intros Hin. apply Hsub, elem_of_difference in Hin as [_ Hin].
    apply Hin. by apply elem_of_singleton. }
  split.
  { intros x Hx. by apply Hsub, elem_of_difference in Hx as [Hx _]. }
  destruct (text_of (unwrap (get_field (lit "Example DE") (rec_fields record))))
    as [|c ex]; [apply create_example_sentence_nonempty | done].
Qed.

(** Everything the loop does: it never raises, prints only per-record
    lines, counts exactly the records it rejects, stores only well-built
    entries, and its keys are the old keys and the keys of the records it
    accepts. *)
Lemma load_loop_full records : forall st g,
  ∃ st' g' extra,
    load_loop records st g = (st', None, g')
    ∧ ls_log st' = ls_log st ++ extra ∧ Forall record_line extra
    ∧ ls_skipped_count st'
      = (ls_skipped_count st + length (List.filter rejected records))%nat
    ∧ (length (ls_words_data st') + length (List.filter rejected records)
       <= length (ls_words_data st) + length records)%nat
    ∧ (Forall (fun kv => well_built kv.2) (ls_words_data st) ->
       Forall (fun kv => well_built kv.2) (ls_words_data st'))
    ∧ ∀ k, k ∈ dict_keys (ls_words_data st') <->
           k ∈ dict_keys (ls_words_data st)
           ∨ ∃ r w p, r ∈ records ∧ accepted_key r = Some (w, p) ∧ k = unique_key w p.
Proof.
  induction records as [|r records IH]; intros st g; cbn [load_loop].
  - exists st, g, []. rewrite app_nil_r. cbn [List.filter length].
    split; [done|]. split; [done|]. split; [constructor|]. split; [lia|].
    split; [lia|]. split; [done|]. intros k. split; [by left|].
    intros [?|(r & w & p & Hin & _)]; [done | by apply elem_of_nil in Hin].
  - destruct (load_record_full st r g) as (st1 & g1 & ex1 & -> & Hlog1 & F1 & Hr).
    destruct (IH st1 g1) as (st' & g' & ex2 & -> & Hlog2 & F2 & Hsk & Hlen & Hwb & Hkeys).
    exists st', g', (ex1 ++ ex2). split; [done|].
    split; [by rewrite Hlog2, Hlog1, <- app_assoc|].
    split; [by apply Forall_app|].
    cbn [List.filter].
    assert (rejected r = match accepted_key r with None => true | _ => false end)
      as -> by done.
    destruct (accepted_key r) as [[w p]|] eqn:Ea; cbn [length].
    + destruct Hr as (e & Hwords & Hsk1 & Hwell).
      pose proof (dict_set_length (unique_key w p) e (ls_words_data st)) as Hl.
      rewrite <- Hwords in Hl.
      split; [lia|]. split; [lia|]. split.
      * intros Hall. apply Hwb. rewrite Hwords. apply Forall_forall.
        intros [k' e'] Hin. apply dict_set_elem in Hin as [[-> ->]|Hin]; [done|].
        by apply (proj1 (Forall_forall _ _) Hall (k', e')).
      * intros k. rewrite Hkeys, Hwords, dict_set_keys_iff. split.
        -- intros [[->|?]|(r' & w' & p' & Hin & Ha & ->)]; [|by left|].
           ++ right. exists r, w, p. split; [left|done].
           ++ right. exists r', w', p'. split; [by right|done].
        -- intros [?|(r' & w' & p' & Hin & Ha & ->)]; [by left; right|].
           apply elem_of_cons in Hin as [->|Hin].
           ++ left. left. congruence.
           ++ right. by exists r', w', p'.
    + destruct Hr as [Hwords Hsk1]. rewrite Hwords in *.
      split; [lia|]. split; [lia|]. split; [done|].
      intros k. rewrite Hkeys. split.
      * intros [?|(r' & w' & p' & Hin & Ha & ->)]; [by left|].
        right. exists r', w', p'. split; [by right|done].
      * intros [?|(r' & w' & p' & Hin & Ha & ->)]; [by left|].
        apply elem_of_cons in Hin as [->|Hin]; [congruence|]. right. by exists r', w', p'.
Qed.

(** The loader on a successful fetch, in terms of the loop. *)
Lemma load_ok_full records g :
  ∃ st g' extra,
    load_words_from_airtable (Ok records) g
    = (ls_words_data st,
       LogFound (length records) :: extra
         ++ [LogLoaded (length (ls_words_data st));
             LogSkipped (length (List.filter rejected records))], g')
    ∧ Forall record_line extra
    ∧ (length (ls_words_data st) + length (List.filter rejected records)
       <= length records)%nat
    ∧ Forall (fun kv => well_built kv.2) (ls_words_data st)
    ∧ ∀ k, k ∈ dict_keys (ls_words_data st) <->
           ∃ r w p, r ∈ records ∧ accepted_key r = Some (w, p) ∧ k = unique_key w p.
Proof.
  destruct (load_loop_full records (load_start records) g)
    as (st & g' & extra & E & Hlog & F & Hsk & Hlen & Hwb & Hkeys).
  exists st, g', extra. split.
  - unfold load_words_from_airtable. fold (load_start records).
    rewrite E, Hlog, Hsk. reflexivity.
  - split; [done|]. split; [exact Hlen|]. split; [apply Hwb; constructor|].
    intros k. rewrite Hkeys. split; [|by right].
    intros [Hin|?]; [by apply elem_of_nil in Hin | done].
Qed.

(** X6: every entry of a dictionary loaded from fetched records has a
    non-empty, trimmed word and preposition, exactly three distinct wrong
    options taken from the pool, none equal to its preposition, and a
    non-empty example. *)
Theorem loaded_entries_well_built records g k e :
  (k, e) ∈ (load_words_from_airtable (Ok records) g).1.1 -> well_built e.
Proof.
  destruct (load_ok_full records g) as (st & g' & extra & -> & _ & _ & Hwb & _).
  cbn [fst]. intros Hin. by apply (proj1 (Forall_forall _ _) Hwb (k, e)).
Qed.

(** X7: on a successful fetch the loader prints, first, the number of
    fetched records, then only per-record lines, and last the number of
    entries it returns and the number of records it rejected; these two
    numbers add up to at most the number of fetched records. *)
Theorem load_report_counts records g :
  ∃ extra,
    (load_words_from_airtable (Ok records) g).1.2
    = LogFound (length records) :: extra
        ++ [LogLoaded (length (load_words_from_airtable (Ok records) g).1.1);
            LogSkipped (length (List.filter rejected records))]
    ∧ Forall record_line extra
    ∧ (length (load_words_from_airtable (Ok records) g).1.1
       + length (List.filter rejected records) <= length records)%nat.
Proof.
  destruct (load_ok_full records g) as (st & g' & extra & -> & F & Hlen & _).
  cbn [fst snd]. eauto.
Qed.

(** X8: the keys of the returned dictionary are exactly the keys under
    which some fetched record is accepted: no accepted record is lost and
    no key is invented. *)
Theorem load_keys_exact records g k :
  k ∈ dict_keys (load_words_from_airtable (Ok records) g).1.1
  <-> ∃ r w p, r ∈ records ∧ accepted_key r = Some (w, p) ∧ k = unique_key w p.
Proof.
  destruct (load_ok_full records g) as (st & g' & extra & -> & _ & _ & _ & Hkeys).
  cbn [fst]. apply Hkeys.
Qed.


End LoaderExtras.


Lemma loaded_entries_well_built_witness :
  well_built
    (default denken_an
       (dict_get (lit "denken_an")
          (@load_words_from_airtable elements_order
             (Ok [denken_rec1; denken_rec2]) zero_rng).1.1)).
Proof.
  apply (@loaded_entries_well_built elements_order [denken_rec1; denken_rec2] zero_rng
           (lit "denken_an")).
  apply dict_get_elem. vm_compute. reflexivity.
Defined.

(** ** Quiz prompt *)

Lemma swap_perm (x : list str) i j :
  (i < length x)%nat -> (j < length x)%nat -> swap i j x ≡ₚ x ∧ length (swap i j x) = length x.
Proof.
  intros Hi Hj. unfold swap. split; [|by rewrite !length_insert].
  destruct (lookup_lt_is_Some_2 x i Hi) as [a Ha].
  destruct (lookup_lt_is_Some_2 x j Hj) as [b Hb].
  rewrite (nth_lookup_Some _ _ _ _ Ha), (nth_lookup_Some _ _ _ _ Hb).
  by apply Permutation_insert_swap.
Qed.

Lemma shuffle_from_perm i : forall (x : list str) g,
  (i < length x)%nat -> (shuffle_from i x g).1 ≡ₚ x.
Proof.
  induction i as [|i IH]; intros x g Hi; cbn [shuffle_from]; [done|].
  destruct (randbelow (S (S i)) g) as [j g1] eqn:Ej.
  assert (j < S (S i))%nat as Hj.
  { pose proof (randbelow_lt (S (S i)) g ltac:(lia)) as Hlt. by rewrite Ej in Hlt. }
  destruct (swap_perm x (S i) j ltac:(lia) ltac:(lia)) as [Hp Hl].
  rewrite IH by lia. exact Hp.
Qed.

(** [random.shuffle] rearranges, it neither drops nor repeats. *)
Lemma random_shuffle_perm (x : list str) g : (random_shuffle x g).1 ≡ₚ x.
Proof.
  unfold random_shuffle. destruct x as [|a x]; [done|].
  apply shuffle_from_perm. cbn [length]. lia.
Qed.

Lemma random_choice_elem (seq : list str) g key g' :
  random_choice seq g = (Ok key, g') -> key ∈ seq.
Proof.
  unfold random_choice. destruct seq as [|a seq]; [done|].
  destruct (randbelow (length (a :: seq)) g) as [i g1] eqn:Ei.
  assert (i < length (a :: seq))%nat as Hi.
  { pose proof (randbelow_lt (length (a :: seq)) g ltac:(cbn; lia)) as Hlt.
    by rewrite Ei in Hlt. }
  destruct (lookup_lt_is_Some_2 _ _ Hi) as [y Hy].
  rewrite (nth_lookup_Some _ _ _ _ Hy). intros [= <- _].
  by eapply list_elem_of_lookup_2.
Qed.

Lemma random_choice_nonempty (seq : list str) g :
  seq ≠ [] -> ∃ key g', random_choice seq g = (Ok key, g').
Proof.
  intros Hne. unfold random_choice. destruct seq as [|a seq]; [done|].
  destruct (randbelow _ g). eauto.
Qed.

Lemma dict_get_key {V} k (d : list (str * V)) :
  k ∈ dict_keys d -> ∃ v, dict_get k d = Some v.
Proof.
  unfold dict_keys. induction d as [|[k0 v0] d IH]; intros Hin.
  - by apply elem_of_nil in Hin.
  - cbn [dict_get]. destruct (decide (k = k0)); [eauto|].
    cbn in Hin. apply elem_of_cons in Hin as [?|Hin]; [done | by apply IH].
Qed.

(** What a successful [start_quiz] has done. *)
Lemma start_quiz_sent bot uid g bot' r g' :
  start_quiz bot uid g = (bot', Sent r, g') ->
  ∃ key e word options,
    (key, e) ∈ words_data bot ∧ e_word e = Some word
    ∧ r = QuizPrompt word options
    ∧ options ≡ₚ e_preposition e :: e_wrong_options e
    ∧ current_quiz bot' = <[uid := session_of word e]> (current_quiz bot)
    ∧ user_stats bot' = user_stats bot
    ∧ words_data bot' = words_data bot.
Proof.
  unfold start_quiz.
  destruct (random_choice _ g) as [[key|ex] g1] eqn:Ec; [|done].
  destruct (dict_get key (words_data bot)) as [e|] eqn:Eg; [|done].
  destruct (e_word e) as [word|] eqn:Ew; [|done].
  pose proof (random_shuffle_perm (e_preposition e :: e_wrong_options e) g1) as Hperm.
  destruct (random_shuffle _ g1) as [options g2]. cbn [fst] in Hperm.
  intros [= <- <- <-]. exists key, e, word, options.
  split; [by apply dict_get_elem|]. done.
Qed.

(** X10: whenever [start_quiz] sends a prompt, the options shown are a
    rearrangement of the correct preposition and the wrong options of one
    entry of the dictionary; the session stored for the user is the
    snapshot of that entry; no counter, no other session and no
    vocabulary entry is changed. *)
Theorem start_quiz_prompt bot uid g bot' r g' :
  start_quiz bot uid g = (bot', Sent r, g') ->
  ∃ key e word options,
    (key, e) ∈ words_data bot ∧ e_word e = Some word
    ∧ r = QuizPrompt word options
    ∧ options ≡ₚ e_preposition e :: e_wrong_options e
    ∧ current_quiz bot' = <[uid := session_of word e]> (current_quiz bot)
    ∧ user_stats bot' = user_stats bot
    ∧ words_data bot' = words_data bot.
Proof. apply start_quiz_sent. Qed.

Lemma start_quiz_prompt_witness :
  ∃ key e word options,
    (key, e) ∈ denken_index ∧ e_word e = Some word
    ∧ (start_quiz denken_bot 8 zero_rng).1.2 = Sent (QuizPrompt word options)
    ∧ options ≡ₚ e_preposition e :: e_wrong_options e.
Proof.
  destruct (start_quiz denken_bot 8 zero_rng) as [[bot' o] g'] eqn:E.
  assert (∃ r, o = Sent r) as [r ->].
  { revert E. vm_compute. intros [= _ <- _]. eauto. }
  destruct (start_quiz_prompt denken_bot 8 zero_rng bot' r g' E)
    as (key & e & word & options & Hin & Hw & -> & Hperm & _).
  exists key, e, word, options. done.
Defined.

(** X11: on a non-empty dictionary whose entries are all well built (as
    the loader builds them), [start_quiz] always sends a prompt, with
    exactly four distinct options, one of which is the correct
    preposition stored in the session. *)
Theorem start_quiz_four_options bot uid g :
  words_data bot ≠ [] ->
  Forall (fun kv => well_built kv.2) (words_data bot) ->
  ∃ bot' word options g' q,
    start_quiz bot uid g = (bot', Sent (QuizPrompt word options), g')
    ∧ length options = 4%nat ∧ NoDup options
    ∧ current_quiz bot' !! uid = Some q
    ∧ q_word q = word ∧ q_correct_preposition q ∈ options.
Proof.
  intros Hne Hwb.
  destruct (random_choice_nonempty (dict_keys (words_data bot)) g) as (key & g1 & Ec).
  { unfold dict_keys. by destruct (words_data bot). }
  pose proof (random_choice_elem _ _ _ _ Ec) as Hkey.
  destruct (dict_get_key _ _ Hkey) as [e Eg].
  pose proof (dict_get_elem _ _ _ Eg) as Hin.
  pose proof (proj1 (Forall_forall _ _) Hwb (key, e) Hin) as Hwell. cbn [snd] in Hwell.
  destruct Hwell as (w & Hw & _ & _ & _ & _ & Hlen & Hnd & Hnotin & _).
  assert (∃ options g2, random_shuffle (e_preposition e :: e_wrong_options e) g1
                        = (options, g2)) as (options & g2 & Es).
  { destruct (random_shuffle _ g1). eauto. }
  pose proof (random_shuffle_perm (e_preposition e :: e_wrong_options e) g1) as Hperm.
  rewrite Es in Hperm. cbn [fst] in Hperm.
  unfold start_quiz. rewrite Ec, Eg, Hw, Es.
  eexists _, w, options, g2, (session_of w e). split; [reflexivity|].
  split; [by rewrite Hperm; cbn [length]; rewrite Hlen|].
  split; [rewrite Hperm; by apply NoDup_cons|].
  split; [cbn [current_quiz]; apply lookup_insert_eq|].
  split; [done|]. rewrite Hperm. left.
Qed.

Lemma start_quiz_four_options_witness :
  ∃ bot' word options g' q,
    start_quiz (fresh_bot denken_loaded) 7 zero_rng
    = (bot', Sent (QuizPrompt word options), g')
    ∧ length options = 4%nat ∧ NoDup options
    ∧ current_quiz bot' !! 7%Z = Some q
    ∧ q_word q = word ∧ q_correct_preposition q ∈ options.
Proof.
  apply start_quiz_four_options.
  - vm_compute. discriminate.
  - cbn [words_data fresh_bot]. unfold denken_loaded.
    destruct (@load_ok_full elements_order [denken_rec1; denken_rec2] zero_rng)
      as (st & g' & extra & -> & _ & _ & Hwb & _).
    exact Hwb.
Defined.

(** ** Grading *)

Lemma get_alternatives_raise idx word cur k e :
  (k, e) ∈ idx -> e_word e = None ->
  get_alternative_prepositions idx word cur = Raise (KeyError (lit "word")).
Proof.
  induction idx as [|[k0 e0] idx IH]; intros Hin Hw.
  - by apply elem_of_nil in Hin.
  - cbn [get_alternative_prepositions].
    destruct (e_word e0) as [w0|] eqn:Hw0; [|done].
    apply elem_of_cons in Hin as [[= -> ->]|Hin]; [congruence|].
    by rewrite (IH Hin Hw).
Qed.






(** X14: when some entry of the dictionary has no word (as in the
    fallback dictionary), an answer to a pending session raises
    [KeyError('word')] after the question has been counted: the counter
    of questions grows by one, nothing else is counted, and the session
    stays pending. *)
Theorem answer_on_wordless_entry bot uid data q st k e :
  (k, e) ∈ words_data bot -> e_word e = None ->
  current_quiz bot !! uid = Some q -> user_stats bot !! uid = Some st ->
  handle_quiz_answer bot data uid
  = ({| words_data := words_data bot;
        current_quiz := current_quiz bot;
        user_stats := <[uid := count_question st]> (user_stats bot) |},
     Raised (KeyError (lit "word"))).
Proof.
  intros Hin Hw Hq Hst. unfold handle_quiz_answer.
  by rewrite Hq, Hst, (get_alternatives_raise _ _ _ k e Hin Hw).
Qed.

Lemma answer_on_wordless_entry_witness :
  handle_quiz_answer stale_bot (lit "answer_an") 7
  = ({| words_data := fallback_data;
        current_quiz := current_quiz stale_bot;
        user_stats := <[7%Z := count_question zero_stats]> (user_stats stale_bot) |},
     Raised (KeyError (lit "word"))).
Proof.
  apply (answer_on_wordless_entry stale_bot 7 (lit "answer_an")
           (session_of (lit "denken") denken_an) zero_stats (lit "achten")
           (default denken_an (dict_get (lit "achten") fallback_data))).
  - left.
  - reflexivity.
  - reflexivity.
  - reflexivity.
Defined.

(** ** Counters and sessions over sequences of events *)

Lemma stats_step_counters st st' :
  stats_step st st' -> counters_ok st -> counters_ok st'.
Proof.
  unfold counters_ok. intros Hstep (H0 & Hb & Hc & Ht).
  destruct Hstep;
    cbn [count_question count_correct reset_streak streak best_streak
           correct_answers total_questions];
    try destruct (Z.ltb_spec (best_streak st) (streak st + 1)); lia.
Qed.

Lemma init_stats_other bot uid v :
  v ≠ uid -> user_stats (init_stats bot uid) !! v = user_stats bot !! v.
Proof.
  intros Hne. unfold init_stats. destruct (user_stats bot !! uid); [done|].
  cbn [user_stats]. by rewrite lookup_insert_ne.
Qed.

Lemma init_stats_quiz bot uid : current_quiz (init_stats bot uid) = current_quiz bot.
Proof. unfold init_stats. by destruct (user_stats bot !! uid). Qed.

Lemma init_stats_words bot uid : words_data (init_stats bot uid) = words_data bot.
Proof. unfold init_stats. by destruct (user_stats bot !! uid). Qed.


Lemma start_quiz_other bot uid g v :
  v ≠ uid ->
  current_quiz (start_quiz bot uid g).1.1 !! v = current_quiz bot !! v.
Proof.
  intros Hne. unfold start_quiz. destruct (random_choice _ g) as [[key|e] g1]; [|done].
  destruct (dict_get key (words_data bot)) as [word_data|]; [|done].
  destruct (e_word word_data); [|done].
  destruct (random_shuffle _ g1). cbn [fst current_quiz]. by rewrite lookup_insert_ne.
Qed.

Lemma start_quiz_words bot uid g : words_data (start_quiz bot uid g).1.1 = words_data bot.
Proof.
  unfold start_quiz. destruct (random_choice _ g) as [[key|e] g1]; [|done].
  destruct (dict_get key (words_data bot)) as [word_data|]; [|done].
  destruct (e_word word_data); [|done]. by destruct (random_shuffle _ g1).
Qed.

(** Grading touches the acting user's session and counters only. *)
Lemma handle_quiz_answer_other bot data uid v :
  let bot' := (handle_quiz_answer bot data uid).1 in
  words_data bot' = words_data bot
  ∧ (v ≠ uid -> user_stats bot' !! v = user_stats bot !! v
                ∧ current_quiz bot' !! v = current_quiz bot !! v).
Proof.
  unfold handle_quiz_answer.
  destruct (current_quiz bot !! uid) as [q|]; [|done].
  destruct (user_stats bot !! uid) as [st0|]; [|done].
  destruct (get_alternative_prepositions _ _ _) as [alts|e].
  2:{ cbn [fst words_data set_stats user_stats current_quiz]. split; [done|].
      intros Hne. by rewrite lookup_insert_ne. }
  destruct (str_eqb _ _); [|destruct (existsb _ _); [destruct (List.find _ _)|]];
    unfold send_result; try destruct (Z.eqb _ _);
    cbn [fst words_data set_stats user_stats current_quiz];
    (split; [done|]); intros Hne;
    rewrite ?lookup_insert_ne, ?lookup_delete_ne by done; done.
Qed.

Section SequenceExtras.
Context `{SetOrder}.

Lemma run_counters evs : forall bot g u,
  counters_ok (stats_of bot u) -> counters_ok (stats_of (run bot evs g).1 u).
Proof.
  induction evs as [|ev evs IH]; intros bot g u Hok; cbn [run]; [done|].
  pose proof (step_stats bot ev g u) as Hstep.
  destruct (step bot ev g) as [[bot' o] g']. cbn [fst] in Hstep.
  apply IH. by eapply stats_step_counters.
Qed.

(** X15: after any sequence of events, for every user whose counters
    satisfied it before (all zeros do), the best streak is at most the
    number of correct answers, which is at most the number of questions
    asked; the streak is between 0 and the best streak. *)
Theorem counters_chain bot uid evs g :
  counters_ok (stats_of bot uid) ->
  let st := stats_of (run bot evs g).1 uid in
  (0 <= streak st)%Z ∧ (streak st <= best_streak st)%Z
  ∧ (best_streak st <= correct_answers st)%Z
  ∧ (correct_answers st <= total_questions st)%Z.
Proof. intros Hok. by apply run_counters. Qed.

(** X16: an event leaves the pending session and the counters of every
    user other than the one it comes from as they are. *)
Theorem other_users_untouched bot ev g v :
  v ≠ event_user ev ->
  user_stats (step bot ev g).1.1 !! v = user_stats bot !! v
  ∧ current_quiz (step bot ev g).1.1 !! v = current_quiz bot !! v.
Proof.
  intros Hne. destruct ev as [uid|uid|uid|uid|uid fetch|uid data];
    cbn [event_user] in Hne; cbn [step].
  - cbn [fst]. by rewrite init_stats_other, init_stats_quiz.
  - by rewrite start_quiz_stats, start_quiz_other.
  - done.
  - cbn [fst stats]. by rewrite init_stats_other, init_stats_quiz.
  - unfold refresh_words_data.
    by destruct (load_words_from_airtable fetch g) as [[wd log] g'].
  - unfold handle_button_click.
    destruct (startswith _ data).
    { by rewrite start_quiz_stats, start_quiz_other, init_stats_other, init_stats_quiz. }
    destruct (str_eqb data _).
    { cbn [fst stats]. by rewrite !init_stats_other, !init_stats_quiz. }
    destruct (str_eqb data _).
    { cbn [fst]. by rewrite init_stats_other, init_stats_quiz. }
    destruct (startswith _ data).
    + cbn [fst].
      destruct (handle_quiz_answer_other (init_stats bot uid) data uid v) as [_ Ho].
      destruct (Ho Hne) as [-> ->]. by rewrite init_stats_other, init_stats_quiz.
    + cbn [fst]. by rewrite init_stats_other, init_stats_quiz.
Qed.

(** X17: only a refresh replaces the vocabulary, and a refresh changes no
    pending session and no counter: a session keeps the snapshot taken
    when the quiz was started. *)
Theorem refresh_only_replaces_vocabulary bot ev g :
  (¬ is_refresh ev -> words_data (step bot ev g).1.1 = words_data bot)
  ∧ (is_refresh ev ->
     current_quiz (step bot ev g).1.1 = current_quiz bot
     ∧ user_stats (step bot ev g).1.1 = user_stats bot).
Proof.
  destruct ev as [uid|uid|uid|uid|uid fetch|uid data]; cbn [is_refresh step];
    (split; [intros Hnr|intros Hr]); try done.
  - cbn [fst]. apply init_stats_words.
  - apply start_quiz_words.
  - cbn [fst stats]. apply init_stats_words.
  - unfold refresh_words_data.
    by destruct (load_words_from_airtable fetch g) as [[wd log] g'].
  - unfold handle_button_click.
    destruct (startswith _ data); [by rewrite start_quiz_words, init_stats_words|].
    destruct (str_eqb data _); [cbn [fst stats]; by rewrite !init_stats_words|].
    destruct (str_eqb data _); [cbn [fst]; apply init_stats_words|].
    destruct (startswith _ data); cbn [fst]; [|apply init_stats_words].
    destruct (handle_quiz_answer_other (init_stats bot uid) data uid uid) as [-> _].
    apply init_stats_words.
Qed.

End SequenceExtras.

Lemma counters_chain_witness :
  let st := stats_of (@run elements_order denken_bot
                        [ButtonClick 7 (lit "answer_an"); CmdQuiz 7;
                         ButtonClick 7 (lit "answer_mit")] zero_rng).1 7 in
  (0 <= streak st)%Z ∧ (streak st <= best_streak st)%Z
  ∧ (best_streak st <= correct_answers st)%Z
  ∧ (correct_answers st <= total_questions st)%Z.
Proof.
  apply (@counters_chain elements_order denken_bot 7). vm_compute. repeat split; discriminate.
Defined.

Lemma other_users_untouched_witness :
  user_stats (@step elements_order denken_bot (ButtonClick 8 (lit "answer_an")) zero_rng).1.1
    !! 7%Z = user_stats denken_bot !! 7%Z
  ∧ current_quiz (@step elements_order denken_bot (ButtonClick 8 (lit "answer_an")) zero_rng).1.1
      !! 7%Z = current_quiz denken_bot !! 7%Z.
Proof. apply (@other_users_untouched elements_order). cbn. discriminate. Defined.

Lemma refresh_only_replaces_vocabulary_witness :
  current_quiz (@step elements_order denken_bot
                  (CmdRefresh 9 (Raise (SourceError (lit "timeout")))) zero_rng).1.1
  = current_quiz denken_bot
  ∧ user_stats (@step elements_order denken_bot
                  (CmdRefresh 9 (Raise (SourceError (lit "timeout")))) zero_rng).1.1
    = user_stats denken_bot.
Proof.
  apply (@refresh_only_replaces_vocabulary elements_order denken_bot
           (CmdRefresh 9 (Raise (SourceError (lit "timeout")))) zero_rng).
  exact I.
Defined.

(** ** From the prompt to the answer *)



Section PromptToAnswer.
Context `{SetOrder}.


End PromptToAnswer.


Lemma stats_step_mono st st' :
  stats_step st st' ->
  (total_questions st <= total_questions st')%Z
  ∧ (correct_answers st <= correct_answers st')%Z.
Proof. intros Hstep. destruct Hstep; cbn; lia. Qed.

Section MonotoneCounters.
Context `{SetOrder}.

(** X19: no sequence of events ever lowers a user's number of questions
    asked or number of correct answers. *)
Theorem counters_never_decrease evs : forall bot g u,
  (total_questions (stats_of bot u) <= total_questions (stats_of (run bot evs g).1 u))%Z
  ∧ (correct_answers (stats_of bot u) <= correct_answers (stats_of (run bot evs g).1 u))%Z.
Proof.
  induction evs as [|ev evs IH]; intros bot g u; cbn [run].
  - cbn [fst]. lia.
  - pose proof (step_stats bot ev g u) as Hstep.
    destruct (step bot ev g) as [[bot' o] g']. cbn [fst] in Hstep.
    apply stats_step_mono in Hstep as [Ht Hc].
    destruct (IH bot' g' u) as [Ht' Hc']. lia.
Qed.

End MonotoneCounters.
